(** * SMV convolution operator: tiled execution driver

    A shallow embedding of [SmvConvolutionOp::runNHWC] and
    [SmvConvolutionOp::run] (nnet_lib/src/operators/smv/smv_convolution_op.cpp)
    together with the tensor / tiled-tensor data model they operate on.

    Tensors live in a heap indexed by addresses, because the operator works
    on [SmvTensor*] pointers and the kernel writes its result in place.
    The fixed-function kernel itself is external: it is a parameter of the
    development. *)

From stdpp Require Import gmap list strings.
From Stdlib Require Import ZArith Lia.

Local Open Scope Z_scope.
Set Default Proof Using "Type".

(** ** Data model *)

(** Modelled from the spec: the tensor classes (core/tensor.h) and the base
    class [ConvolutionOp] (operators/convolution_op.h) are used by the
    operator but defined elsewhere; the types below give the parts of them
    the operator touches. *)

(** Modelled from the spec: the layout tag, an enumerated set of axis
    orderings. *)
Inductive DataLayout := UnknownLayout | NCHW | NHWC.

Global Instance DataLayout_eq_dec : EqDecision DataLayout.
Proof. solve_decision. Defined.

(** Modelled from the spec: [TensorShape] is an ordered sequence of
    per-dimension extents, per-dimension padding amounts and a layout tag. *)
Record TensorShape := mkShape {
  dims : list Z;
  padding : list Z;
  layout : DataLayout
}.

(** [shape[i]] and [shape.getPadding(i)].  All shapes handled by the operator
    are four-dimensional; an absent dimension reads as 0. *)
Definition shape_at (s : TensorShape) (i : nat) : Z := nth i (dims s) 0.
Definition getPadding (s : TensorShape) (i : nat) : Z := nth i (padding s) 0.
Definition getLayout (s : TensorShape) : DataLayout := layout s.

(** Addresses of heap-allocated tensors ([SmvTensor*]). *)
Definition addr := nat.

(** Modelled from the spec: a [TiledTensor] is the tile-grid shape (number
    of tiles per axis, not elements) and the tile pointers, one per grid
    slot, in row-major grid order. *)
Record TiledTensor := mkTiled {
  tt_shape : TensorShape;
  tt_tiles : list addr
}.

(** Modelled from the spec: what [SmvConvolutionOp] inherits from
    [ConvolutionOp] and reads in [run] and [runNHWC]: its three tensors, the
    kernel extent and the strides. *)
Record ConvOp := mkOp {
  op_input : addr;
  op_kernels : addr;
  op_output : addr;
  weightRows : Z;
  weightCols : Z;
  rowStride : Z;
  colStride : Z
}.

Definition getRowStride (op : ConvOp) : Z := rowStride op.
Definition getColStride (op : ConvOp) : Z := colStride op.

(** Hardware resource constants of namespace [smaug::smv::conv]. *)
Definition kNumPEs : Z := 8.
Definition kNumMaccsPerPE : Z := 32.

(** The arguments of one call of
    [smv_conv3d_f32_nhwc_same_padding_vec_fxp], buffers given by the address
    of the tile they belong to.  [kc_N], [kc_H] and [kc_wC] are not passed
    to the kernel: they record the remaining loop variables at the moment of
    the call ([W] and [iC] are genuine arguments). *)
Record KernelCall := mkCall {
  kc_N : Z;
  kc_H : Z;
  kc_wC : Z;
  kc_inputs : addr;
  kc_weights : addr;
  kc_results : addr;
  kc_inputDims : list Z;
  kc_weightsDims : list Z;
  kc_outputDims : list Z;
  kc_inputPad : Z;
  kc_weightsPad : Z;
  kc_outputPad : Z;
  kc_rowStride : Z;
  kc_colStride : Z;
  kc_W : Z;
  kc_iC : Z;
  kc_flag : bool
}.

(** Observable events, in program order. *)
Inductive event :=
  | EvPrint (inputIdx weightIdx outputIdx : Z)
  | EvKernel (call : KernelCall)
  | EvDebug (kernels : addr)
  | EvComputeTileShapes
  | EvGenerateTiled (src : addr) (tileShape : TensorShape) (halos : list Z).

Inductive fault :=
  | AssertionFailed
  | IndexError
  | BadPointer
  | OutOfFuel.

Global Instance fault_eq_dec : EqDecision fault.
Proof. solve_decision. Defined.

(** Modelled from the spec: [TiledTensor::startIndex] (core/tensor.h)
    returns a coordinate-indexing function closed over the tile-grid shape;
    called with (n,h,w,c) it yields the linear (row-major) tile index, and
    fails when a coordinate is outside [[0, extent)] of its axis. *)
Definition startIndex (t : TiledTensor) (n h w c : Z) : option Z :=
  let s := tt_shape t in
  if bool_decide (0 <= n < shape_at s 0) && bool_decide (0 <= h < shape_at s 1)
     && bool_decide (0 <= w < shape_at s 2) && bool_decide (0 <= c < shape_at s 3)
  then Some (((n * shape_at s 1 + h) * shape_at s 2 + w) * shape_at s 3 + c)
  else None.

(** Modelled from the spec: [TiledTensor::operator[]] (core/tensor.h)
    returns the tile at a linear slot and fails when the slot is not
    populated. *)
Definition tile_at (t : TiledTensor) (i : Z) : option addr :=
  if bool_decide (0 <= i) then tt_tiles t !! Z.to_nat i else None.

(** [for (int i = 0; i < n; i++)] ranges over these values. *)
Definition zrange (n : Z) : list Z := seqZ 0 n.

Section Driver.

(** Element type of the tensor buffers ([float] in the source). *)
Context {elem : Type}.

(** Modelled from the spec: a [Tensor] is a shape and a contiguous buffer
    of [extent_0 * ... * (extent_last + padding_last)] elements. *)
Record Tensor := mkTensor {
  t_shape : TensorShape;
  t_data : list elem
}.

(** The external kernel: from the three buffers and the scalar arguments it
    computes the new contents of the result buffer, which is written in
    place. *)
Variable smv_conv3d_f32_nhwc_same_padding_vec_fxp :
  list elem -> list elem -> list elem ->
  list Z -> list Z -> list Z -> Z -> Z -> Z -> Z -> Z -> Z -> Z -> bool ->
  list elem.

Record world := mkWorld {
  heap : gmap addr Tensor;
  trace : list event
}.

Inductive outcome (A : Type) :=
  | Ok (a : A) (w : world)
  | Fault (f : fault) (w : world).
Arguments Ok {A} a w.
Arguments Fault {A} f w.

Definition M (A : Type) : Type := world -> outcome A.

Definition ret {A} (a : A) : M A := fun w => Ok a w.
Definition bind {A B} (m : M A) (k : A -> M B) : M B :=
  fun w => match m w with
           | Ok a w' => k a w'
           | Fault f w' => Fault f w'
           end.
Definition raise {A} (f : fault) : M A := fun w => Fault f w.

Notation "x <- c1 ;; c2" := (bind c1 (fun x => c2))
  (at level 100, c1 at next level, right associativity).
Notation "c1 ;;; c2" := (bind c1 (fun _ => c2))
  (at level 100, right associativity).

Definition emit (e : event) : M unit :=
  fun w => Ok tt (mkWorld (heap w) (trace w ++ [e])).

Definition lift_option {A} (f : fault) (o : option A) : M A :=
  match o with Some a => ret a | None => raise f end.

Definition deref (a : addr) : M Tensor :=
  fun w => match heap w !! a with
           | Some t => Ok t w
           | None => Fault BadPointer w
           end.

(** In-place write of a tile's buffer; its shape is unchanged. *)
Definition write_data (a : addr) (d : list elem) : M unit :=
  fun w => match heap w !! a with
           | Some t => Ok tt (mkWorld (<[a := mkTensor (t_shape t) d]> (heap w)) (trace w))
           | None => Fault BadPointer w
           end.

Definition assert (b : bool) : M unit :=
  if b then ret tt else raise AssertionFailed.

Fixpoint for_each (l : list Z) (body : Z -> M unit) : M unit :=
  match l with
  | [] => ret tt
  | x :: l' => body x ;;; for_each l' body
  end.

Definition dims4 (s : TensorShape) : list Z :=
  [shape_at s 0; shape_at s 1; shape_at s 2; shape_at s 3].

(** The body of the [while] loop up to and including the kernel call
    (lines 31-60). *)
Definition conv_tile (op : ConvOp) (inputs weights outputs : TiledTensor)
    (N H W iC wC : Z) : M unit :=
  ii <- lift_option IndexError (startIndex inputs N H 0 iC) ;;
  wi <- lift_option IndexError (startIndex weights W 0 0 wC) ;;
  oi <- lift_option IndexError (startIndex outputs N H 0 W) ;;
  emit (EvPrint ii wi oi) ;;;
  inputTile <- lift_option BadPointer (tile_at inputs ii) ;;
  weightsTile <- lift_option BadPointer (tile_at weights wi) ;;
  outputTile <- lift_option BadPointer (tile_at outputs oi) ;;
  tin <- deref inputTile ;;
  twt <- deref weightsTile ;;
  tout <- deref outputTile ;;
  let inputShape := t_shape tin in
  let weightsShape := t_shape twt in
  let outputShape := t_shape tout in
  let inputDims := dims4 inputShape in
  let weightsDims := dims4 weightsShape in
  let outputDims := dims4 outputShape in
  emit (EvKernel
          (mkCall N H wC inputTile weightsTile outputTile
                  inputDims weightsDims outputDims
                  (getPadding inputShape 3) (getPadding weightsShape 3)
                  (getPadding outputShape 3)
                  (getRowStride op) (getColStride op) W iC
                  (bool_decide (iC = wC)))) ;;;
  write_data outputTile
    (smv_conv3d_f32_nhwc_same_padding_vec_fxp
       (t_data tin) (t_data twt) (t_data tout)
       inputDims weightsDims outputDims
       (getPadding inputShape 3) (getPadding weightsShape 3)
       (getPadding outputShape 3)
       (getRowStride op) (getColStride op) W iC (bool_decide (iC = wC))).

(** How the cursors move after a kernel call (lines 62-69). *)
Definition advance (inputChanTiles weightChanTiles : Z) (c : Z * Z) : Z * Z :=
  let '(iC, wC) := c in
  if bool_decide (inputChanTiles = weightChanTiles) then (iC + 1, wC + 1)
  else if bool_decide (inputChanTiles = 1) then (iC, wC + 1)
  else (iC + 1, wC).

(** The [while (iC < inputChanTiles && wC < weightChanTiles)] loop
    (lines 30-70).  [fuel] bounds the number of iterations. *)
Fixpoint chan_loop (fuel : nat) (op : ConvOp) (inputs weights outputs : TiledTensor)
    (N H W inputChanTiles weightChanTiles iC wC : Z) : M unit :=
  if bool_decide (iC < inputChanTiles) && bool_decide (wC < weightChanTiles) then
    match fuel with
    | O => raise OutOfFuel
    | S fuel' =>
        conv_tile op inputs weights outputs N H W iC wC ;;;
        let '(iC', wC') := advance inputChanTiles weightChanTiles (iC, wC) in
        chan_loop fuel' op inputs weights outputs N H W
                  inputChanTiles weightChanTiles iC' wC'
    end
  else ret tt.

(** [SmvConvolutionOp::runNHWC]. *)
Definition runNHWC (fuel : nat) (op : ConvOp) (inputs weights outputs : TiledTensor)
    : M unit :=
  for_each (zrange (shape_at (tt_shape inputs) 0)) (fun N =>
    for_each (zrange (shape_at (tt_shape inputs) 1)) (fun H =>
      for_each (zrange (shape_at (tt_shape weights) 0)) (fun W =>
        let inputChanTiles := shape_at (tt_shape inputs) 3 in
        let weightChanTiles := shape_at (tt_shape weights) 3 in
        chan_loop fuel op inputs weights outputs N H W
                  inputChanTiles weightChanTiles 0 0))).

(** ** Tiling *)

(** Tile shapes for the three tensors, as returned by
    [TilingOptimizer::computeBasicTileShapes]. *)
Record TilingConfig := mkTiling {
  tc_inputs : TensorShape;
  tc_weights : TensorShape;
  tc_outputs : TensorShape
}.

(** [TilingOptimizer::computeBasicTileShapes] belongs to
    operators/smv/smv_convolution_tiling.h; the operator only calls it.  It
    is a parameter here, applied to the hardware constants, the operator and
    the three tensor shapes. *)
Variable computeBasicTileShapes :
  Z -> Z -> ConvOp -> TensorShape -> TensorShape -> TensorShape -> TilingConfig.

(** Value stored in padding lanes of freshly generated tiles. *)
Variable zero : elem.

(** Row-major linearisation of a coordinate in a grid of extents [ds]. *)
Fixpoint flat_index (ds c : list Z) (acc : Z) : Z :=
  match ds, c with
  | d :: ds', x :: c' => flat_index ds' c' (acc * d + x)
  | _, _ => acc
  end.

(** All coordinates of a grid of extents [ds], in row-major order. *)
Fixpoint coords (ds : list Z) : list (list Z) :=
  match ds with
  | [] => [[]]
  | d :: ds' => x ← zrange d; (cons x) <$> coords ds'
  end.

Fixpoint in_rangeb (ds c : list Z) : bool :=
  match ds, c with
  | [], [] => true
  | d :: ds', x :: c' => bool_decide (0 <= x < d) && in_rangeb ds' c'
  | _, _ => false
  end.

(** Modelled from the spec: the extents of the buffer, where the last axis
    carries its padding. *)
Fixpoint storage_dims (ds : list Z) (p : Z) : list Z :=
  match ds with
  | [] => []
  | d :: ds' => match ds' with
                | [] => [d + p]
                | _ => d :: storage_dims ds' p
                end
  end.

Definition storage_of (s : TensorShape) : list Z :=
  storage_dims (dims s) (List.last (padding s) 0).

(** Element of a tensor at a logical coordinate. *)
Definition tensor_get (t : Tensor) (c : list Z) : elem :=
  if in_rangeb (dims (t_shape t)) c
  then nth (Z.to_nat (flat_index (storage_of (t_shape t)) c 0)) (t_data t) zero
  else zero.

(** Modelled from the spec: one axis of a tiling problem (source extent,
    tile extent, halo), the number of tiles along it, and for tile [k] its
    core [[core_lo, core_hi)] and the region [[tile_lo, tile_hi)] it copies,
    the core widened by the halo and cut at the source boundary. *)
Record axis := mkAxis { ax_n : Z; ax_t : Z; ax_h : Z }.

Fixpoint mk_axes (ns ts hs : list Z) : list axis :=
  match ns, ts, hs with
  | n :: ns', t :: ts', h :: hs' => mkAxis n t h :: mk_axes ns' ts' hs'
  | _, _, _ => []
  end.

Definition num_tiles (a : axis) : Z := (ax_n a + ax_t a - 1) / ax_t a.
Definition core_lo (a : axis) (k : Z) : Z := k * ax_t a.
Definition core_hi (a : axis) (k : Z) : Z := Z.min (ax_n a) (k * ax_t a + ax_t a).
Definition tile_lo (a : axis) (k : Z) : Z := Z.max 0 (core_lo a k - ax_h a).
Definition tile_hi (a : axis) (k : Z) : Z := Z.min (ax_n a) (core_hi a k + ax_h a).
Definition tile_extent (a : axis) (k : Z) : Z := tile_hi a k - tile_lo a k.

(** Modelled from the spec: the tile at grid coordinate [k], a copy of its
    region of the source, padding lanes filled with [zero]. *)
Definition make_tile (src : Tensor) (tileShape : TensorShape)
    (axes : list axis) (k : list Z) : Tensor :=
  let ext := zip_with tile_extent axes k in
  let org := zip_with tile_lo axes k in
  let shp := mkShape ext (padding tileShape) (layout tileShape) in
  mkTensor shp
    ((fun x => if in_rangeb ext x
               then tensor_get src (zip_with Z.add org x) else zero)
       <$> coords (storage_of shp)).

(** Modelled from the spec: [TilingOptimizer::generateTiledTensor]
    (operators/smv/smv_convolution_tiling.h) partitions the source tensor
    into a grid of tiles of [tileShape]; along each axis a tile additionally
    includes [halos[axis]] elements of overlap borrowed from the adjacent
    regions of the source, clamped at the source boundary (the halo of a
    boundary tile is truncated).  Edge tiles are smaller when the extent is
    not a multiple of the tile size. *)
Definition generate_tiles (src : Tensor) (tileShape : TensorShape)
    (halos : list Z) : list Z * list Tensor :=
  let axes := mk_axes (dims (t_shape src)) (dims tileShape) halos in
  let grid := num_tiles <$> axes in
  (grid, make_tile src tileShape axes <$> coords grid).

Definition alloc (t : Tensor) : M addr :=
  fun w => let a := fresh (dom (heap w)) in
           Ok a (mkWorld (<[a := t]> (heap w)) (trace w)).

Fixpoint alloc_all (ts : list Tensor) : M (list addr) :=
  match ts with
  | [] => ret []
  | t :: ts' => a <- alloc t ;; l <- alloc_all ts' ;; ret (a :: l)
  end.

Definition generateTiledTensor (src : addr) (tileShape : TensorShape)
    (halos : list Z) : M TiledTensor :=
  t <- deref src ;;
  emit (EvGenerateTiled src tileShape halos) ;;;
  let '(grid, tiles) := generate_tiles t tileShape halos in
  l <- alloc_all tiles ;;
  ret (mkTiled (mkShape grid (replicate (length grid) 0) (layout tileShape)) l).

(** [SmvConvolutionOp::run]. *)
Definition run (fuel : nat) (op : ConvOp) : M unit :=
  let input := op_input op in
  let kernels := op_kernels op in
  let output := op_output op in
  tinput <- deref input ;;
  tkernels <- deref kernels ;;
  toutput <- deref output ;;
  let inputShape := t_shape tinput in
  let kernelShape := t_shape tkernels in
  let outputShape := t_shape toutput in
  assert (bool_decide (getLayout inputShape = NHWC)) ;;;
  assert (bool_decide (getLayout kernelShape = NHWC)) ;;;
  assert (bool_decide (getLayout outputShape = NHWC)) ;;;
  emit (EvDebug kernels) ;;;
  emit EvComputeTileShapes ;;;
  let tileShapes :=
    computeBasicTileShapes kNumPEs kNumMaccsPerPE op
                           inputShape kernelShape outputShape in
  let inputHalos := [0; weightRows op `quot` 2; weightCols op `quot` 2; 0] in
  tiledInputs <- generateTiledTensor input (tc_inputs tileShapes) inputHalos ;;
  tiledWeights <- generateTiledTensor kernels (tc_weights tileShapes) [0; 0; 0; 0] ;;
  tiledOutputs <- generateTiledTensor output (tc_outputs tileShapes) [0; 0; 0; 0] ;;
  runNHWC fuel op tiledInputs tiledWeights tiledOutputs.

(** ** Putting tiles back together *)

(** Position of coordinate [c] in a concatenation of pieces of the given
    sizes: the piece it falls in and the offset inside it. *)
Fixpoint locate (cores : list Z) (c : Z) : Z * Z :=
  match cores with
  | [] => (0, c)
  | s :: rest =>
      if bool_decide (c < s) then (0, c)
      else let '(k, off) := locate rest (c - s) in (k + 1, off)
  end.

Definition sum_list_Z (l : list Z) : Z := foldr Z.add 0 l.

(** Leading halo of tile [k] along an axis, and its core (halo-free)
    extent given the tile's full extent [e]. *)
Definition lead (t h k : Z) : Z := Z.min h (k * t).
Definition core_of (t h k e : Z) : Z := Z.min t (e - lead t h k).

Definition grid_tile (grid : list Z) (tiles : list Tensor) (k : list Z)
    : option Tensor :=
  tiles !! Z.to_nat (flat_index grid k 0).

Definition unit_coord (rank a : nat) (k : Z) : list Z :=
  <[a := k]> (replicate rank 0).

(** Core extents of the tiles met along axis [a]. *)
Definition axis_cores (grid : list Z) (tiles : list Tensor) (a : nat) (t h : Z)
    : list Z :=
  (fun k =>
     core_of t h k
       (match grid_tile grid tiles (unit_coord (length grid) a k) with
        | Some tl => nth a (dims (t_shape tl)) 0
        | None => 0
        end)) <$> zrange (nth a grid 0).

Fixpoint all_cores (grid : list Z) (tiles : list Tensor) (a : nat)
    (ts hs : list Z) : list (list Z) :=
  match ts, hs with
  | t :: ts', h :: hs' =>
      axis_cores grid tiles a t h :: all_cores grid tiles (S a) ts' hs'
  | _, _ => []
  end.

Fixpoint local_coord (ts hs : list Z) (kl : list (Z * Z)) : list Z :=
  match ts, hs, kl with
  | t :: ts', h :: hs', (k, off) :: kl' =>
      (lead t h k + off) :: local_coord ts' hs' kl'
  | _, _, _ => []
  end.

(** Concatenation of the tiles along every axis with the halo overlap
    removed: the extents of the result and its elements in row-major
    order. *)
Definition stitch (ts hs : list Z) (grid : list Z) (tiles : list Tensor)
    : list Z * list elem :=
  let cores := all_cores grid tiles 0 ts hs in
  let rdims := sum_list_Z <$> cores in
  (rdims,
   (fun c =>
      let kl := zip_with locate cores c in
      match grid_tile grid tiles (fst <$> kl) with
      | Some tl => tensor_get tl (local_coord ts hs kl)
      | None => zero
      end) <$> coords rdims).

(** The logical (unpadded) contents of a tensor in row-major order. *)
Definition logical_data (t : Tensor) : list elem :=
  tensor_get t <$> coords (dims (t_shape t)).

End Driver.

Arguments Ok {elem A} a w.
Arguments Fault {elem A} f w.
Arguments Tensor : clear implicits.
Arguments world : clear implicits.
Arguments outcome : clear implicits.

(** The world in which an execution ended, by success or by fault. *)
Definition final_world {elem A} (o : outcome elem A) : world elem :=
  match o with Ok _ w => w | Fault _ w => w end.

Definition is_ok {elem A} (o : outcome elem A) : Prop :=
  match o with Ok _ _ => True | Fault _ _ => False end.

(** The kernel invocations of a trace, and the cursors of a call. *)
Definition kernel_calls (tr : list event) : list KernelCall :=
  omap (fun e => match e with EvKernel c => Some c | _ => None end) tr.

Definition cursor (c : KernelCall) : Z * Z := (kc_iC c, kc_wC c).

(** ** Specification-level notions *)

(** The cursor pairs at which the [while] loop calls the kernel, starting
    from [(iC, wC)]. *)
Fixpoint schedule (fuel : nat) (inputChanTiles weightChanTiles iC wC : Z)
    : list (Z * Z) :=
  if bool_decide (iC < inputChanTiles) && bool_decide (wC < weightChanTiles) then
    match fuel with
    | O => []
    | S fuel' =>
        (iC, wC) ::
        let '(iC', wC') := advance inputChanTiles weightChanTiles (iC, wC) in
        schedule fuel' inputChanTiles weightChanTiles iC' wC'
    end
  else [].

(** Iterations the loop can still make from [(iC, wC)]. *)
Definition chan_measure (inputChanTiles weightChanTiles iC wC : Z) : nat :=
  (Z.to_nat (inputChanTiles - iC) + Z.to_nat (weightChanTiles - wC))%nat.

(** The channel-tile reconciliation rule in the words of the design: the
    sequence of cursor pairs visited from [(iC, wC)]. *)
Inductive reconcile (I Wt : Z) : Z -> Z -> list (Z * Z) -> Prop :=
  | reconcile_done iC wC :
      ~ (iC < I /\ wC < Wt) ->
      reconcile I Wt iC wC []
  | reconcile_both iC wC rest :
      iC < I -> wC < Wt -> I = Wt ->
      reconcile I Wt (iC + 1) (wC + 1) rest ->
      reconcile I Wt iC wC ((iC, wC) :: rest)
  | reconcile_weights iC wC rest :
      iC < I -> wC < Wt -> I <> Wt -> I = 1 ->
      reconcile I Wt iC (wC + 1) rest ->
      reconcile I Wt iC wC ((iC, wC) :: rest)
  | reconcile_inputs iC wC rest :
      iC < I -> wC < Wt -> I <> Wt -> I <> 1 ->
      reconcile I Wt (iC + 1) wC rest ->
      reconcile I Wt iC wC ((iC, wC) :: rest).

(** Shapes of the tensors of a heap; the kernel never changes them. *)
Definition shapes {elem} (h : gmap addr (Tensor elem)) : gmap addr TensorShape :=
  t_shape <$> h.

Definition grid_size (t : TiledTensor) : Z :=
  shape_at (tt_shape t) 0 * shape_at (tt_shape t) 1
  * shape_at (tt_shape t) 2 * shape_at (tt_shape t) 3.

(** Every slot of the tile grid holds a live tensor. *)
Definition populated (sh : gmap addr TensorShape) (t : TiledTensor) : Prop :=
  Z.of_nat (length (tt_tiles t)) = grid_size t /\
  Forall (fun a => is_Some (sh !! a)) (tt_tiles t).

(** The three tile grids fit the loop nest of [runNHWC]. *)
Definition grids_agree (inputs weights outputs : TiledTensor) : Prop :=
  0 < shape_at (tt_shape inputs) 2 /\
  0 < shape_at (tt_shape weights) 1 /\ 0 < shape_at (tt_shape weights) 2 /\
  0 < shape_at (tt_shape outputs) 2 /\
  shape_at (tt_shape inputs) 0 <= shape_at (tt_shape outputs) 0 /\
  shape_at (tt_shape inputs) 1 <= shape_at (tt_shape outputs) 1 /\
  shape_at (tt_shape weights) 0 <= shape_at (tt_shape outputs) 3.

Definition tiling_ok (sh : gmap addr TensorShape)
    (inputs weights outputs : TiledTensor) : Prop :=
  grids_agree inputs weights outputs /\
  populated sh inputs /\ populated sh weights /\ populated sh outputs.

Global Instance populated_dec sh t : Decision (populated sh t).
Proof. unfold populated. apply _. Defined.
Global Instance grids_agree_dec i w o : Decision (grids_agree i w o).
Proof. unfold grids_agree. apply _. Defined.
Global Instance tiling_ok_dec sh i w o : Decision (tiling_ok sh i w o).
Proof. unfold tiling_ok. apply _. Defined.

(** The pointer stored for tile coordinate (n,h,w,c). *)
Definition tile_ptr (t : TiledTensor) (n h w c : Z) : option addr :=
  startIndex t n h w c ≫= tile_at t.

(** [c] is the kernel call made for loop variables [N H W iC wC]. *)
Definition call_at (sh : gmap addr TensorShape) (op : ConvOp)
    (inputs weights outputs : TiledTensor) (N H W iC wC : Z)
    (c : KernelCall) : Prop :=
  kc_N c = N /\ kc_H c = H /\ kc_W c = W /\ kc_iC c = iC /\ kc_wC c = wC /\
  kc_flag c = bool_decide (iC = wC) /\
  tile_ptr inputs N H 0 iC = Some (kc_inputs c) /\
  tile_ptr weights W 0 0 wC = Some (kc_weights c) /\
  tile_ptr outputs N H 0 W = Some (kc_results c) /\
  dims4 <$> sh !! kc_inputs c = Some (kc_inputDims c) /\
  dims4 <$> sh !! kc_weights c = Some (kc_weightsDims c) /\
  dims4 <$> sh !! kc_results c = Some (kc_outputDims c) /\
  kc_rowStride c = getRowStride op /\ kc_colStride c = getColStride op.

(** The accumulate discipline: a call's flag is false when it is the first
    to touch its output tile and true when an earlier call touched it. *)
Definition overwrite_then_accumulate (calls : list KernelCall) : Prop :=
  forall j c, calls !! j = Some c ->
    kc_flag c =
    bool_decide (Exists (fun c' => kc_results c' = kc_results c) (take j calls)).

(** An error is reported before the tile loop has called the kernel. *)
Definition reported_before_loop {elem} (w : world elem)
    (o : outcome elem unit) : Prop :=
  exists f w', o = Fault f w' /\
               kernel_calls (trace w') = kernel_calls (trace w).

Definition flag_is_equality (c : KernelCall) : Prop :=
  kc_flag c = bool_decide (kc_iC c = kc_wC c).

(** [c] is a call [runNHWC] makes, at the loop variables it records. *)
Definition issued (op : ConvOp) (inputs weights outputs : TiledTensor)
    (sh : gmap addr TensorShape) (c : KernelCall) : Prop :=
  call_at sh op inputs weights outputs
          (kc_N c) (kc_H c) (kc_W c) (kc_iC c) (kc_wC c) c.

(** What a run of the tile loops can change: shapes never, buffers only of
    output tiles; and every kernel call it adds satisfies [P]. *)
Definition evolves {elem} (outputs : TiledTensor)
    (P : gmap addr TensorShape -> KernelCall -> Prop)
    (w w' : world elem) : Prop :=
  shapes (heap w') = shapes (heap w) /\
  (forall a, a ∉ tt_tiles outputs -> heap w' !! a = heap w !! a) /\
  exists calls, kernel_calls (trace w') = kernel_calls (trace w) ++ calls /\
                Forall (P (shapes (heap w))) calls.

(** The pairs the design requires for channel-tile counts [I] and [Wt]:
    step [j] pairs input tile [min j (I-1)] with weight tile
    [min j (Wt-1)]. *)
Definition required_pairs (I Wt : Z) : list (Z * Z) :=
  (fun j => (Z.min j (I - 1), Z.min j (Wt - 1))) <$> seqZ 0 (Z.max I Wt).

(** The calls of [generateTiledTensor] recorded in a trace. *)
Definition tiling_requests (tr : list event) : list (addr * TensorShape * list Z) :=
  omap (fun e => match e with
                 | EvGenerateTiled a s h => Some (a, s, h)
                 | _ => None
                 end) tr.

(** The operator with another configured kernel extent. *)
Definition with_kernel_extent (rows cols : Z) (op : ConvOp) : ConvOp :=
  mkOp (op_input op) (op_kernels op) (op_output op) rows cols
       (rowStride op) (colStride op).

(** Some weight tile's spatial extent differs from the configured kernel
    extent. *)
Definition weight_tile_mismatch (op : ConvOp) (sh : gmap addr TensorShape)
    (weights : TiledTensor) : Prop :=
  exists a s, a ∈ tt_tiles weights /\ sh !! a = Some s /\
              (shape_at s 1 <> weightRows op \/ shape_at s 2 <> weightCols op).

(** The tile loops never ask for a tiling. *)
Definition same_requests {elem} (w w' : world elem) : Prop :=
  tiling_requests (trace w') = tiling_requests (trace w).

Definition prod_Z (ds : list Z) : Z := foldr Z.mul 1 ds.

(** The tensors a tiled tensor points to, in grid order; [None] when one of
    its tile pointers is dangling. *)
Definition tiles_of {elem} (h : gmap addr (Tensor elem)) (t : TiledTensor)
    : option (list (Tensor elem)) :=
  mapM (fun a => h !! a) (tt_tiles t).

(** Number of tiles needed to cover [n] elements with tiles of [t]. *)
Definition tiles_along (n t : Z) : Z := (n + t - 1) / t.

(** A tiling problem the generator accepts along one axis: positive source
    and tile extents, non-negative halo. *)
Definition axis_ok (a : axis) : Prop := 0 < ax_n a /\ 0 < ax_t a /\ 0 <= ax_h a.

Definition core_size (a : axis) (k : Z) : Z := core_hi a k - core_lo a k.

(** The core extents of the tiles along one axis. *)
Definition axis_core_list (a : axis) : list Z :=
  core_size a <$> zrange (num_tiles a).

(** ** Concrete scenarios *)

Module Demo.

Definition demo_kernel (i w r : list Z) (_ _ _ : list Z)
    (_ _ _ _ _ _ _ : Z) (flag : bool) : list Z :=
  (fun x => (if flag then x else 0) + foldr Z.add 0 i * foldr Z.add 0 w) <$> r.

Definition nhwc (ds : list Z) : TensorShape := mkShape ds [0; 0; 0; 0] NHWC.

Definition tile (ds : list Z) (v : Z) : Tensor Z :=
  mkTensor (nhwc ds) (replicate (Z.to_nat (foldr Z.mul 1 ds)) v).

Definition op : ConvOp := mkOp 100%nat 101%nat 102%nat 3 3 1 1.

(** Input split in 2 channel tiles, weights in 2 filter tiles of 2 channel
    tiles each. *)
Definition inputs22 : TiledTensor := mkTiled (nhwc [1; 1; 1; 2]) [0; 1]%nat.
Definition weights22 : TiledTensor := mkTiled (nhwc [2; 1; 1; 2]) [2; 3; 4; 5]%nat.
Definition outputs22 : TiledTensor := mkTiled (nhwc [1; 1; 1; 2]) [6; 7]%nat.
Definition world22 : world Z :=
  mkWorld (map_seq 0 ([tile [1; 4; 4; 2] 1; tile [1; 4; 4; 2] 2]
                      ++ [tile [4; 3; 3; 2] 1; tile [4; 3; 3; 2] 2;
                          tile [4; 3; 3; 2] 3; tile [4; 3; 3; 2] 4]
                      ++ [tile [1; 4; 4; 4] 0; tile [1; 4; 4; 4] 0])) [].

(** One input channel tile against 4 weight channel tiles. *)
Definition inputs14 : TiledTensor := mkTiled (nhwc [1; 1; 1; 1]) [0]%nat.
Definition weights14 : TiledTensor := mkTiled (nhwc [1; 1; 1; 4]) [1; 2; 3; 4]%nat.
Definition outputs14 : TiledTensor := mkTiled (nhwc [1; 1; 1; 1]) [5]%nat.
Definition world14 : world Z :=
  mkWorld (map_seq 0 ([tile [1; 4; 4; 4] 1]
                      ++ [tile [8; 3; 3; 1] 1; tile [8; 3; 3; 1] 2;
                          tile [8; 3; 3; 1] 3; tile [8; 3; 3; 1] 4]
                      ++ [tile [1; 4; 4; 8] 0])) [].

(** 3 input channel tiles against 2 weight channel tiles. *)
Definition inputs32 : TiledTensor := mkTiled (nhwc [1; 1; 1; 3]) [0; 1; 2]%nat.
Definition weights32 : TiledTensor := mkTiled (nhwc [1; 1; 1; 2]) [3; 4]%nat.
Definition outputs32 : TiledTensor := mkTiled (nhwc [1; 1; 1; 1]) [5]%nat.
Definition world32 : world Z :=
  mkWorld (map_seq 0 ([tile [1; 4; 4; 2] 1; tile [1; 4; 4; 2] 2; tile [1; 4; 4; 2] 3]
                      ++ [tile [4; 3; 3; 3] 1; tile [4; 3; 3; 3] 2]
                      ++ [tile [1; 4; 4; 4] 0])) [].

(** The configured kernel extent is 5x5 while the weight tiles of
    [world22] are 3x3. *)
Definition op5x5 : ConvOp := with_kernel_extent 5 5 op.

(** A whole operator: input 1x4x4x4, 8 filters of 3x3x4, output 1x4x4x8,
    and a tiler that halves the channels and the filters. *)
Definition data (ds : list Z) : Tensor Z :=
  mkTensor (nhwc ds) (seqZ 0 (foldr Z.mul 1 ds)).

Definition world_op : world Z :=
  mkWorld (<[100%nat := data [1; 4; 4; 4]]>
           (<[101%nat := data [8; 3; 3; 4]]>
            (<[102%nat := tile [1; 4; 4; 8] 0]> ∅))) [].

Definition demo_tiler (_ _ : Z) (_ : ConvOp) (_ _ _ : TensorShape) : TilingConfig :=
  mkTiling (nhwc [1; 4; 4; 2]) (nhwc [4; 3; 3; 2]) (nhwc [1; 4; 4; 4]).

(** The same operator with its kernels tensor tagged NCHW. *)
Definition world_nchw : world Z :=
  mkWorld (<[101%nat := mkTensor (mkShape [8; 4; 3; 3] [0; 0; 0; 0] NCHW)
                                 (seqZ 0 288)]> (heap world_op)) [].

(** A 1x5x5x2 source cut in 2x2 spatial tiles with a halo of 1, the last
    row and column of tiles being partial. *)
Definition src5 : Tensor Z := data [1; 5; 5; 2].
Definition tile2 : TensorShape := nhwc [1; 2; 2; 2].
Definition halo1 : list Z := [0; 1; 1; 0].

End Demo.

(** ** The whole loop nest *)

Definition loop_vars (c : KernelCall) : Z * Z * Z * Z * Z :=
  (kc_N c, kc_H c, kc_W c, kc_iC c, kc_wC c).

(** The cursor pairs of one (N,H,W) iteration, in closed form. *)
Definition chan_pairs (I Wt : Z) : list (Z * Z) :=
  if bool_decide (0 < I /\ 0 < Wt) then
    if bool_decide (I = Wt) then (fun j => (j, j)) <$> seqZ 0 I
    else if bool_decide (I = 1) then (fun j => (0, j)) <$> seqZ 0 Wt
    else (fun j => (j, 0)) <$> seqZ 0 I
  else [].

(** The layouts the operator declares (smv_convolution_op.h);
    [DataLayoutSet] is taken as the list of its members. *)
Definition getInputDataLayouts : list DataLayout := [NHWC].
Definition getOutputDataLayouts : list DataLayout := [NHWC].

(** The faults of the tile loops are index and pointer faults and the fuel
    bound; they never fail an assertion. *)
Definition loop_fault (f : fault) : Prop := f <> AssertionFailed.

(** * The core header and the MKL forward pass *)

Module Nnet.

(** ** nnet_fwd_defs.h: enumerations and structures *)

Inductive data_init_mode := RANDOM | FIXED | READ_FILE.
Inductive pool_type := MAX | AVG.
Inductive activation_type :=
  | NO_ACTIVATION | RELU | RELU_THRESHOLD | LRELU | ELU | SELU | TANH
  | SIGMOID | SOFTMAX.
Inductive input_pp := FLATTEN | UNFLATTEN | NO_PREPROCESSING.
Inductive layer_type := CONV | POOLING | FC | BATCH_NORM | OUTPUT | INPUT | END.
Inductive io_req_t := IO_NONE | IO_DMA | IO_ACP | IO_CACHE.

Global Instance pool_type_eq_dec : EqDecision pool_type.
Proof. solve_decision. Defined.
Global Instance activation_type_eq_dec : EqDecision activation_type.
Proof. solve_decision. Defined.
Global Instance layer_type_eq_dec : EqDecision layer_type.
Proof. solve_decision. Defined.

Record dims_t := mk_dims {
  rows : Z;
  cols : Z;
  height : Z;
  align_pad : Z
}.

Record layer_t := mk_layer {
  type : layer_type;
  activation : activation_type;
  inputs : dims_t;
  weights : dims_t;
  outputs : dims_t;
  field_stride : Z;
  c_padding : Z;
  pool : pool_type;
  result_in_temp : Z;
  input_preprocessing : input_pp;
  input_req : io_req_t;
  output_req : io_req_t
}.

(** [float*] values are addresses; [result_buf] is one of them. *)
Definition ptr := Z.
Definition result_buf := ptr.

(** [layers] stands for the array the [layer_t*] points to. *)
Record network_t := mk_network {
  layers : list layer_t;
  depth : Z
}.

Record farray_t := mk_farray {
  d : ptr;
  size : Z
}.

(** ** nnet_fwd_defs.h: macros *)

Definition LAYER_TYPE_STR (arg : layer_type) : string :=
  if decide (arg = CONV) then "CONV"
  else if decide (arg = POOLING) then "POOLING"
  else if decide (arg = FC) then "FC"
  else if decide (arg = OUTPUT) then "OUTPUT"
  else if decide (arg = INPUT) then "INPUT"
  else "UNKNOWN".

Definition ACTIVATION_TYPE_STR (arg : activation_type) : string :=
  if decide (arg = NO_ACTIVATION) then "NONE"
  else if decide (arg = RELU) then "RELU"
  else if decide (arg = RELU_THRESHOLD) then "RELU_THRESHOLD"
  else if decide (arg = LRELU) then "LRELU"
  else if decide (arg = ELU) then "ELU"
  else if decide (arg = SELU) then "SELU"
  else if decide (arg = TANH) then "TANH"
  else if decide (arg = SIGMOID) then "SIGMOID"
  else if decide (arg = SOFTMAX) then "SOFTMAX"
  else "UNKNOWN".

Section Extrema.

(** The macros apply to any type with [>] and [<]; the comparisons are
    parameters ([float] and [int] in the sources). *)
Context {T : Type}.
Variable gt : T -> T -> bool.
Variable lt : T -> T -> bool.

Definition max2 (A B : T) : T := if gt A B then A else B.
Definition max4 (e0 e1 e2 e3 : T) : T := max2 (max2 e0 e1) (max2 e2 e3).
Definition max8 (e0 e1 e2 e3 e4 e5 e6 e7 : T) : T :=
  max2 (max4 e0 e1 e2 e3) (max4 e4 e5 e6 e7).
Definition max9 (e0 e1 e2 e3 e4 e5 e6 e7 e8 : T) : T :=
  max2 (max8 e0 e1 e2 e3 e4 e5 e6 e7) e8.

Definition min2 (A B : T) : T := if lt A B then A else B.

End Extrema.

(** On [int] arguments, [/] and [%] truncate towards zero. *)
Definition FRAC_CEIL (A B : Z) : Z :=
  A `quot` B + (if bool_decide (A `rem` B <> 0) then 1 else 0).

(** The index macros are applied to [int] values: every [*] and [+] is a
    32-bit two's-complement operation, whose result wraps around. *)
Definition INT_MIN : Z := -2147483648.
Definition INT_MAX : Z := 2147483647.

Definition wrap_int (x : Z) : Z := (x - INT_MIN) `mod` 2 ^ 32 + INT_MIN.

Definition int_add (a b : Z) : Z := wrap_int (a + b).
Definition int_mul (a b : Z) : Z := wrap_int (a * b).

Definition sub2ind (r c n_columns : Z) : Z :=
  int_add (int_mul r n_columns) c.

Definition sub3ind (h r c n_rows n_cols : Z) : Z :=
  int_add (sub2ind r c n_cols) (int_mul h (int_mul n_rows n_cols)).

Definition sub4ind (d h r c n_hgt n_rows n_cols : Z) : Z :=
  int_add (sub3ind h r c n_rows n_cols)
          (int_mul d (int_mul (int_mul n_rows n_cols) n_hgt)).

Definition CACHELINE_SIZE : Z := 64.


(** ** arch/mkl.cpp *)

(** Calls that leave the file: the [nnet_mkl] kernels, the session and the
    debug output.  A kernel receives [&layers[lnum]]; the call records
    [lnum]. *)
Inductive mkl_call :=
  | Im2row (activations : ptr) (lnum : Z) (result : ptr)
  | MatrixMultiplyWithBias (activations weights : ptr) (lnum : Z) (result : ptr)
  | Convolution3d (activations weights : ptr) (lnum : Z) (result : ptr)
  | DepthwiseConvolution3d (activations weights : ptr) (lnum : Z) (result : ptr)
  | PointwiseConvolution3d (activations weights : ptr) (lnum : Z) (result : ptr)
  | MaxPooling3d (activations : ptr) (lnum : Z) (result : ptr)
  | AvgPooling3d (activations : ptr) (lnum : Z) (result : ptr)
  | BatchNorm (activations weights : ptr) (lnum : Z) (n : Z) (result : ptr)
  | ActivationFun (activations : ptr) (n : Z) (lnum : Z) (result : ptr)
  | RunAndClear
  | SessionNew
  | SessionRun
  | SessionDelete
  | PrintMsg (msg : string)
  | PrintDebug (hid : ptr) (rows cols num_cols : Z)
  | PrintDebug4d (hid : ptr) (rows cols height : Z).

Definition is_activation (e : mkl_call) : Prop :=
  match e with ActivationFun _ _ _ _ => True | _ => False end.

(** [layers[i]]; reading outside the array is undefined. *)
Definition layer_at (layers : list layer_t) (i : Z) : option layer_t :=
  if bool_decide (0 <= i) then layers !! Z.to_nat i else None.

Definition set_result_in_temp (v : Z) (l : layer_t) : layer_t :=
  mk_layer (type l) (activation l) (inputs l) (weights l) (outputs l)
           (field_stride l) (c_padding l) (pool l) v
           (input_preprocessing l) (input_req l) (output_req l).

Section Mkl.

(** Compile-time and global configuration. *)
Variable DEBUG_LEVEL : Z.
Variable NUM_TEST_CASES : Z.

(** Functions of other files. [run_layer_skip_activation_func] dispatches
    on the layer type to the layer functions below; it yields the calls it
    makes and the buffer it leaves the result in. *)
Variable get_weights_loc_for_layer : list layer_t -> Z -> Z.
Variable im2row : ptr -> list layer_t -> Z -> ptr -> result_buf.
Variable run_layer_skip_activation_func :
  ptr -> ptr -> list layer_t -> Z -> ptr -> list mkl_call * result_buf.

Definition run_and_clear : list mkl_call :=
  if bool_decide (DEBUG_LEVEL > 0) then [RunAndClear] else [].

Definition PRINT_MSG (msg : string) : list mkl_call :=
  if bool_decide (DEBUG_LEVEL >= 2) then [PrintMsg msg] else [].

Definition PRINT_DEBUG (hid : ptr) (rows cols num_cols : Z) : list mkl_call :=
  if bool_decide (DEBUG_LEVEL >= 2) then [PrintDebug hid rows cols num_cols] else [].

Definition PRINT_DEBUG4D (hid : ptr) (rows cols height : Z) : list mkl_call :=
  if bool_decide (DEBUG_LEVEL >= 2) then [PrintDebug4d hid rows cols height] else [].

Definition flatten_input (activations : ptr) (layers : list layer_t) (lnum : Z)
    (result : ptr) : list mkl_call * result_buf :=
  ([Im2row activations lnum result], im2row activations layers lnum result).

Definition inner_product_layer (activations weights : ptr)
    (layers : list layer_t) (lnum : Z) (result : ptr)
    : option (list mkl_call * result_buf) :=
  let curr_layer_weights := weights + get_weights_loc_for_layer layers lnum in
  dbg ← (if bool_decide (DEBUG_LEVEL >= 2)
         then l ← layer_at layers lnum;
              Some [PrintDebug weights (rows (Nnet.weights l))
                               (cols (Nnet.weights l)) (cols (Nnet.weights l))]
         else Some []);
  Some (dbg
        ++ [MatrixMultiplyWithBias activations curr_layer_weights lnum result]
        ++ run_and_clear, result).

Definition standard_convolution_layer (activations weights : ptr)
    (layers : list layer_t) (lnum : Z) (result : ptr)
    : list mkl_call * result_buf :=
  let curr_layer_weights := weights + get_weights_loc_for_layer layers lnum in
  ([Convolution3d activations curr_layer_weights lnum result] ++ run_and_clear,
   result).

Definition depthwise_convolution_layer (activations weights : ptr)
    (layers : list layer_t) (lnum : Z) (result : ptr)
    : list mkl_call * result_buf :=
  let curr_layer_weights := weights + get_weights_loc_for_layer layers lnum in
  ([DepthwiseConvolution3d activations curr_layer_weights lnum result]
   ++ run_and_clear, result).

Definition pointwise_convolution_layer (activations weights : ptr)
    (layers : list layer_t) (lnum : Z) (result : ptr)
    : list mkl_call * result_buf :=
  let curr_layer_weights := weights + get_weights_loc_for_layer layers lnum in
  ([PointwiseConvolution3d activations curr_layer_weights lnum result]
   ++ run_and_clear, result).

Definition pooling_layer (activations : ptr) (layers : list layer_t) (lnum : Z)
    (result : ptr) : option (list mkl_call * result_buf) :=
  l ← layer_at layers lnum;
  Some ((if decide (pool l = MAX) then [MaxPooling3d activations lnum result]
         else if decide (pool l = AVG) then [AvgPooling3d activations lnum result]
         else [])
        ++ run_and_clear, result).

Definition batch_norm_layer (activations weights : ptr)
    (layers : list layer_t) (lnum : Z) (result : ptr)
    : list mkl_call * result_buf :=
  let curr_layer_weights := weights + get_weights_loc_for_layer layers lnum in
  ([BatchNorm activations curr_layer_weights lnum NUM_TEST_CASES result]
   ++ run_and_clear, result).

Definition activation_sublayer (activations : ptr) (layers : list layer_t)
    (lnum : Z) (result : ptr) : list mkl_call * result_buf :=
  ([ActivationFun activations NUM_TEST_CASES lnum result] ++ run_and_clear,
   result).

Definition run_layer (activations weights : ptr) (layers : list layer_t)
    (layer_num : Z) (result : ptr) : option (list mkl_call * result_buf) :=
  curr_layer ← layer_at layers layer_num;
  let '(tr, result_loc) :=
    run_layer_skip_activation_func activations weights layers layer_num result in
  if decide (activation curr_layer <> NO_ACTIVATION) then
    let '(tra, result_loc) :=
      if decide (result_loc = activations)
      then ((activation_sublayer activations layers layer_num result).1,
            result_loc)
      else ((activation_sublayer result layers layer_num activations).1,
            activations) in
    Some (tr ++ PRINT_MSG "\nactivation function\n" ++ tra
          ++ PRINT_DEBUG4D result_loc (rows (outputs curr_layer))
               (cols (outputs curr_layer) + align_pad (outputs curr_layer))
               (height (outputs curr_layer)),
          result_loc)
  else Some (tr, result_loc).

(** The primary loop of [nnet_fwd], [l] ranging over [ls]. *)
Fixpoint nnet_fwd_outer (ls : list Z) (activations weights result : farray_t)
    (layers : list layer_t) (result_loc : result_buf)
    : option (list mkl_call * result_buf) :=
  match ls with
  | [] => Some ([], result_loc)
  | l :: ls' =>
      curr_layer ← layer_at layers l;
      '(tr, result_loc) ←
        (if decide (result_loc = d result)
         then run_layer (d result) (d weights) layers l (d activations)
         else run_layer (d activations) (d weights) layers l (d result));
      '(tr', result_loc) ←
        nnet_fwd_outer ls' activations weights result layers result_loc;
      Some (tr ++ tr', result_loc)
  end.

(** [nnet_fwd]: the calls made and the layer array it leaves.  The session
    pointer stored in [device] is not modelled. *)
Definition nnet_fwd (activations weights result : farray_t)
    (network : network_t) : option (list mkl_call * list layer_t) :=
  let layers := Nnet.layers network in
  let result_loc := d activations in
  '(tr, result_loc) ←
    nnet_fwd_outer (seqZ 1 (depth network - 1)) activations weights result
                   layers result_loc;
  let tr_run := if bool_decide (DEBUG_LEVEL = 0) then [SessionRun] else [] in
  last ← layer_at layers (depth network - 1);
  Some ([SessionNew] ++ tr ++ tr_run ++ [SessionDelete],
        <[Z.to_nat (depth network - 1) :=
            set_result_in_temp (if decide (result_loc = d result) then 1 else 0)
                               last]> layers).

End Mkl.

End Nnet.

(** A tiling whose input grid has no batch tile at all. *)
Module DemoEmpty.

Definition inputs0 : TiledTensor := mkTiled (Demo.nhwc [0; 1; 1; 2]) [].

End DemoEmpty.

(** ** Scenarios for the forward pass *)

Module NnetDemo.
Import Nnet.

Definition dims0 : dims_t := mk_dims 4 4 2 0.

Definition layer (t : layer_type) (a : activation_type) : layer_t :=
  mk_layer t a dims0 dims0 dims0 1 0 MAX 0 NO_PREPROCESSING IO_NONE IO_NONE.

(** An input layer and three layers with an activation function. *)
Definition net_relu : network_t :=
  mk_network [layer INPUT NO_ACTIVATION; layer CONV RELU; layer POOLING RELU;
              layer FC SIGMOID] 4.

(** An input layer and three layers without activation function. *)
Definition net_plain : network_t :=
  mk_network [layer INPUT NO_ACTIVATION; layer CONV NO_ACTIVATION;
              layer CONV NO_ACTIVATION; layer CONV NO_ACTIVATION] 4.

Definition acts : farray_t := mk_farray 1000 64.
Definition wgts : farray_t := mk_farray 2000 64.
Definition res : farray_t := mk_farray 3000 64.

(** Every layer is run as a standard convolution, weights at offset 0. *)
Definition demo_skip (a w : ptr) (ls : list layer_t) (l : Z) (r : ptr)
    : list mkl_call * result_buf :=
  standard_convolution_layer 0 (fun _ _ => 0) a w ls l r.

End NnetDemo.

(** * Properties *)

Section DriverFacts.

Context {elem : Type}.
Variable kernel :
  list elem -> list elem -> list elem ->
  list Z -> list Z -> list Z -> Z -> Z -> Z -> Z -> Z -> Z -> Z -> bool ->
  list elem.

Variable computeBasicTileShapes :
  Z -> Z -> ConvOp -> TensorShape -> TensorShape -> TensorShape -> TilingConfig.
Variable zero : elem.

Implicit Types (w : world elem) (op : ConvOp) (inputs weights outputs : TiledTensor).

Lemma kernel_calls_app tr1 tr2 :
  kernel_calls (tr1 ++ tr2) = kernel_calls tr1 ++ kernel_calls tr2.
Proof. unfold kernel_calls. apply omap_app. Qed.

Lemma shapes_write (h : gmap addr (Tensor elem)) a t d :
  h !! a = Some t ->
  shapes (<[a := mkTensor (t_shape t) d]> h) = shapes h.
Proof.
  intros Ha. unfold shapes. rewrite fmap_insert. simpl.
  apply insert_id. rewrite lookup_fmap, Ha. reflexivity.
Qed.

Lemma conv_tile_inv op inputs weights outputs N H W iC wC w :
  match conv_tile kernel op inputs weights outputs N H W iC wC w with
  | Ok _ w' =>
      exists c ii wi oi,
        trace w' = trace w ++ [EvPrint ii wi oi; EvKernel c] /\
        call_at (shapes (heap w)) op inputs weights outputs N H W iC wC c /\
        shapes (heap w') = shapes (heap w) /\
        (forall a, a <> kc_results c -> heap w' !! a = heap w !! a)
  | Fault f w' =>
      f <> OutOfFuel /\
      kernel_calls (trace w') = kernel_calls (trace w) /\
      heap w' = heap w /\
      (trace w' = trace w \/
       exists ii wi oi, trace w' = trace w ++ [EvPrint ii wi oi])
  end.
Proof.
  unfold conv_tile, bind, lift_option, ret, raise, emit, deref, write_data, tile_ptr, call_at.
  destruct (startIndex inputs N H 0 iC) as [ii|] eqn:Ei; simpl; [|by eauto].
  destruct (startIndex weights W 0 0 wC) as [wi|] eqn:Ew; simpl; [|by eauto].
  destruct (startIndex outputs N H 0 W) as [oi|] eqn:Eo; simpl; [|by eauto].
  destruct (tile_at inputs ii) as [ai|] eqn:Eai; simpl;
    [|rewrite kernel_calls_app, app_nil_r; by eauto 10].
  destruct (tile_at weights wi) as [aw|] eqn:Eaw; simpl;
    [|rewrite kernel_calls_app, app_nil_r; by eauto 10].
  destruct (tile_at outputs oi) as [ao|] eqn:Eao; simpl;
    [|rewrite kernel_calls_app, app_nil_r; by eauto 10].
  destruct (heap w !! ai) as [ti|] eqn:Eti; simpl;
    [|rewrite kernel_calls_app, app_nil_r; by eauto 10].
  destruct (heap w !! aw) as [tw|] eqn:Etw; simpl;
    [|rewrite kernel_calls_app, app_nil_r; by eauto 10].
  destruct (heap w !! ao) as [to|] eqn:Eto; simpl;
    [|rewrite kernel_calls_app, app_nil_r; by eauto 10].
  rewrite Eto.
  eexists _, ii, wi, oi. simpl.
  split; [by rewrite <- app_assoc|].
  split.
  { unfold shapes. simpl. rewrite !lookup_fmap, Eti, Etw, Eto. simpl. repeat split; try done; unfold tile_ptr; by rewrite ?Ei, ?Ew, ?Eo. }
  split; [by eapply shapes_write|].
  intros a Ha. by rewrite lookup_insert_ne.
Qed.

Lemma chan_loop_unfold op inputs weights outputs N H W I Wt fuel iC wC w :
  chan_loop kernel (S fuel) op inputs weights outputs N H W I Wt iC wC w =
  if bool_decide (iC < I) && bool_decide (wC < Wt) then
    match conv_tile kernel op inputs weights outputs N H W iC wC w with
    | Ok _ w1 =>
        chan_loop kernel fuel op inputs weights outputs N H W I Wt
                  (advance I Wt (iC, wC)).1 (advance I Wt (iC, wC)).2 w1
    | Fault f w1 => Fault f w1
    end
  else Ok tt w.
Proof.
  simpl. case_match; [|done]. unfold bind.
  destruct (conv_tile _ _ _ _ _ _ _ _ _ _ _); [|done].
  unfold advance. by repeat case_match.
Qed.

Lemma schedule_unfold I Wt fuel iC wC :
  schedule (S fuel) I Wt iC wC =
  if bool_decide (iC < I) && bool_decide (wC < Wt) then
    (iC, wC) :: schedule fuel I Wt (advance I Wt (iC, wC)).1 (advance I Wt (iC, wC)).2
  else [].
Proof. simpl. case_match; [|done]. unfold advance. by repeat case_match. Qed.

(** The loop, for every outcome: the kernel calls it adds follow an initial
    segment of the schedule (all of it on success), shapes are kept, and
    only result tiles of those calls are written. *)
Lemma chan_loop_inv op inputs weights outputs N H W I Wt fuel :
  forall iC wC w,
  let o := chan_loop kernel fuel op inputs weights outputs N H W I Wt iC wC w in
  exists calls sch,
    kernel_calls (trace (final_world o)) = kernel_calls (trace w) ++ calls /\
    sch `prefix_of` schedule fuel I Wt iC wC /\
    Forall2 (fun p c => call_at (shapes (heap w)) op inputs weights outputs
                                N H W p.1 p.2 c) sch calls /\
    shapes (heap (final_world o)) = shapes (heap w) /\
    (forall a, a ∉ kc_results <$> calls ->
               heap (final_world o) !! a = heap w !! a) /\
    (is_ok o -> sch = schedule fuel I Wt iC wC).
Proof.
  induction fuel as [|fuel IH]; intros iC wC w o; subst o.
  - simpl. case_match; simpl.
    + exists [], []. rewrite app_nil_r. repeat split; try done; apply prefix_nil.
    + exists [], []. rewrite app_nil_r. repeat split; try done.
  - rewrite chan_loop_unfold, schedule_unfold. case_match.
    2:{ exists [], []. rewrite app_nil_r. repeat split; try done. }
    pose proof (conv_tile_inv op inputs weights outputs N H W iC wC w) as Hb.
    destruct (conv_tile kernel op inputs weights outputs N H W iC wC w)
      as [[] w1|f w1].
    2:{ destruct Hb as (_ & Hk & Hh & _). exists [], []. cbn [final_world].
        rewrite app_nil_r, Hh. repeat split; try done; apply prefix_nil. }
    destruct Hb as (c & ii & wi & oi & Htr & Hc & Hsh & Hfr).
    destruct (IH (advance I Wt (iC, wC)).1 (advance I Wt (iC, wC)).2 w1)
      as (calls & sch & Hk & Hp & Hf & Hs & Hframe & Hok).
    exists (c :: calls), ((iC, wC) :: sch).
    split. { rewrite Hk, Htr, kernel_calls_app. simpl. by rewrite <- app_assoc. }
    split. { by apply prefix_cons. }
    split. { constructor; [done|]. by rewrite <- Hsh. }
    split. { by rewrite Hs. }
    split.
    { intros a Ha. rewrite fmap_cons, not_elem_of_cons in Ha.
      destruct Ha as [Ha1 Ha2]. rewrite Hframe by done. by apply Hfr. }
    intros Hok'. f_equal. by apply Hok.
Qed.

Lemma startIndex_Some t n h x c :
  0 <= n < shape_at (tt_shape t) 0 -> 0 <= h < shape_at (tt_shape t) 1 ->
  0 <= x < shape_at (tt_shape t) 2 -> 0 <= c < shape_at (tt_shape t) 3 ->
  exists i, startIndex t n h x c = Some i /\ 0 <= i < grid_size t.
Proof.
  intros Hn Hh Hx Hc. unfold startIndex, grid_size.
  rewrite !bool_decide_eq_true_2 by done. simpl.
  eexists; split; [done|].
  set (d0 := shape_at (tt_shape t) 0) in *. set (d1 := shape_at (tt_shape t) 1) in *.
  set (d2 := shape_at (tt_shape t) 2) in *. set (d3 := shape_at (tt_shape t) 3) in *.
  assert (0 <= n * d1 + h < d0 * d1) by nia.
  assert (0 <= (n * d1 + h) * d2 + x < d0 * d1 * d2) by nia.
  nia.
Qed.

Lemma populated_lookup sh t i :
  populated sh t -> 0 <= i < grid_size t ->
  exists a, tile_at t i = Some a /\ is_Some (sh !! a).
Proof.
  intros [Hlen Hall] Hi. unfold tile_at.
  rewrite bool_decide_eq_true_2 by lia.
  destruct (lookup_lt_is_Some_2 (tt_tiles t) (Z.to_nat i)) as [a Ha]; [lia|].
  exists a. split; [done|]. rewrite Forall_forall in Hall.
  apply Hall. by eapply list_elem_of_lookup_2.
Qed.

Lemma tile_ptr_Some sh t n h x c :
  populated sh t ->
  0 <= n < shape_at (tt_shape t) 0 -> 0 <= h < shape_at (tt_shape t) 1 ->
  0 <= x < shape_at (tt_shape t) 2 -> 0 <= c < shape_at (tt_shape t) 3 ->
  exists i a, startIndex t n h x c = Some i /\ tile_at t i = Some a /\
              is_Some (sh !! a).
Proof.
  intros Hp Hn Hh Hx Hc.
  destruct (startIndex_Some t n h x c) as (i & Hi & Hr); try done.
  destruct (populated_lookup sh t i) as (a & Ha & Hs); try done.
  by exists i, a.
Qed.

Lemma conv_tile_total op inputs weights outputs N H W iC wC w :
  tiling_ok (shapes (heap w)) inputs weights outputs ->
  0 <= N < shape_at (tt_shape inputs) 0 ->
  0 <= H < shape_at (tt_shape inputs) 1 ->
  0 <= W < shape_at (tt_shape weights) 0 ->
  0 <= iC < shape_at (tt_shape inputs) 3 ->
  0 <= wC < shape_at (tt_shape weights) 3 ->
  is_ok (conv_tile kernel op inputs weights outputs N H W iC wC w).
Proof.
  intros (Hg & Hi & Hw & Ho) HN HH HW HiC HwC.
  destruct Hg as (g1 & g2 & g3 & g4 & g5 & g6 & g7).
  destruct (tile_ptr_Some _ inputs N H 0 iC Hi) as (ii & ai & E1 & E2 & [ti E3]);
    try lia.
  destruct (tile_ptr_Some _ weights W 0 0 wC Hw) as (wi & aw & E4 & E5 & [tw E6]);
    try lia.
  destruct (tile_ptr_Some _ outputs N H 0 W Ho) as (oi & ao & E7 & E8 & [to E9]);
    try lia.
  unfold shapes in E3, E6, E9. rewrite lookup_fmap in E3, E6, E9.
  destruct (heap w !! ai) eqn:F1; [|done].
  destruct (heap w !! aw) eqn:F2; [|done].
  destruct (heap w !! ao) eqn:F3; [|done].
  unfold conv_tile, bind, lift_option, ret, raise, emit, deref, write_data.
  rewrite E1, E4, E7. simpl. rewrite E2, E5, E8. simpl.
  rewrite F1. simpl. rewrite F2. simpl. rewrite F3. simpl. by rewrite F3.
Qed.

Lemma advance_step I Wt iC wC :
  iC < I -> wC < Wt ->
  let p := advance I Wt (iC, wC) in
  iC <= p.1 /\ wC <= p.2 /\
  (chan_measure I Wt p.1 p.2 < chan_measure I Wt iC wC)%nat.
Proof.
  intros Hi Hw. unfold advance, chan_measure.
  repeat case_match; simpl; lia.
Qed.

Lemma chan_loop_total op inputs weights outputs N H W fuel :
  forall iC wC w,
  tiling_ok (shapes (heap w)) inputs weights outputs ->
  0 <= N < shape_at (tt_shape inputs) 0 ->
  0 <= H < shape_at (tt_shape inputs) 1 ->
  0 <= W < shape_at (tt_shape weights) 0 ->
  0 <= iC -> 0 <= wC ->
  (chan_measure (shape_at (tt_shape inputs) 3) (shape_at (tt_shape weights) 3)
                iC wC <= fuel)%nat ->
  is_ok (chan_loop kernel fuel op inputs weights outputs N H W
           (shape_at (tt_shape inputs) 3) (shape_at (tt_shape weights) 3)
           iC wC w).
Proof.
  induction fuel as [|fuel IH]; intros iC wC w Hok HN HH HW HiC HwC Hfuel.
  - simpl. case_match eqn:Hg; [|done].
    apply andb_true_iff in Hg as [?%bool_decide_eq_true ?%bool_decide_eq_true].
    unfold chan_measure in Hfuel. lia.
  - rewrite chan_loop_unfold. case_match eqn:Hg; [|done].
    apply andb_true_iff in Hg as [Hi%bool_decide_eq_true Hw%bool_decide_eq_true].
    pose proof (conv_tile_inv op inputs weights outputs N H W iC wC w) as Hb.
    pose proof (conv_tile_total op inputs weights outputs N H W iC wC w) as Ht.
    destruct (conv_tile kernel op inputs weights outputs N H W iC wC w)
      as [[] w1|f w1]; [|apply Ht; done || lia].
    destruct Hb as (c & ii & wi & oi & Htr & Hc & Hsh & Hfr).
    destruct (advance_step _ _ iC wC Hi Hw) as (A1 & A2 & A3).
    apply IH; try done; try lia. by rewrite Hsh.
Qed.
Lemma guard_true I Wt iC wC :
  iC < I -> wC < Wt -> bool_decide (iC < I) && bool_decide (wC < Wt) = true.
Proof. intros. by rewrite !bool_decide_eq_true_2. Qed.

Lemma guard_false I Wt iC wC :
  ~ (iC < I /\ wC < Wt) -> bool_decide (iC < I) && bool_decide (wC < Wt) = false.
Proof.
  intros Hn. apply andb_false_iff.
  destruct (decide (iC < I)); [right|left]; apply bool_decide_eq_false_2; lia.
Qed.

Lemma schedule_nil I Wt fuel iC wC :
  ~ (iC < I /\ wC < Wt) -> schedule fuel I Wt iC wC = [].
Proof. intros Hn. destruct fuel; simpl; by rewrite guard_false. Qed.

Lemma seqZ_step (m len : Z) : 0 < len -> seqZ m len = m :: seqZ (m + 1) (len - 1).
Proof. intros. by rewrite seqZ_cons. Qed.

(** The cursors of a call are within the channel extents, and never below
    the start: an increment never leaves the range of the extents, so the
    [int] cursors of the source cannot overflow. *)
Lemma schedule_bounds I Wt fuel :
  forall iC wC p, p ∈ schedule fuel I Wt iC wC ->
  iC <= p.1 < I /\ wC <= p.2 < Wt.
Proof.
  induction fuel as [|fuel IH]; intros iC wC p.
  - simpl. case_match; by intros ?%elem_of_nil.
  - rewrite schedule_unfold. case_match eqn:Hg; [|by intros ?%elem_of_nil].
    apply andb_true_iff in Hg as [Hi%bool_decide_eq_true Hw%bool_decide_eq_true].
    intros [->|Hp]%elem_of_cons; [simpl; lia|].
    apply IH in Hp. destruct (advance_step I Wt iC wC Hi Hw) as (A1 & A2 & _).
    lia.
Qed.

(** Equal tile counts: both cursors advance together. *)
Lemma schedule_both I Wt fuel :
  I = Wt -> forall i, (Z.to_nat (I - i) <= fuel)%nat ->
  schedule fuel I Wt i i = (fun j => (j, j)) <$> seqZ i (I - i).
Proof.
  intros ->. induction fuel as [|fuel IH]; intros i Hf.
  - rewrite schedule_nil by lia. by rewrite seqZ_nil by lia.
  - destruct (decide (i < Wt)) as [Hi|Hi].
    + rewrite schedule_unfold, guard_true by done.
      unfold advance. rewrite bool_decide_eq_true_2 by done. simpl.
      rewrite (seqZ_step i) by lia. rewrite fmap_cons, IH by lia.
      do 3 f_equal. lia.
    + rewrite schedule_nil by lia. by rewrite seqZ_nil by lia.
Qed.

(** A single input channel tile: only the weight cursor advances. *)
Lemma schedule_weights I Wt fuel :
  I <> Wt -> I = 1 -> forall i c, i < I -> (Z.to_nat (Wt - c) <= fuel)%nat ->
  schedule fuel I Wt i c = (fun j => (i, j)) <$> seqZ c (Wt - c).
Proof.
  intros Hne H1. induction fuel as [|fuel IH]; intros i c Hi Hf.
  - rewrite schedule_nil by lia. by rewrite seqZ_nil by lia.
  - destruct (decide (c < Wt)) as [Hc|Hc].
    + rewrite schedule_unfold, guard_true by done.
      unfold advance. rewrite bool_decide_eq_false_2 by done.
      rewrite bool_decide_eq_true_2 by done. simpl.
      rewrite (seqZ_step c) by lia. rewrite fmap_cons, IH by lia.
      do 3 f_equal. lia.
    + rewrite schedule_nil by lia. by rewrite seqZ_nil by lia.
Qed.

(** Otherwise: only the input cursor advances. *)
Lemma schedule_inputs I Wt fuel :
  I <> Wt -> I <> 1 -> forall i c, c < Wt -> (Z.to_nat (I - i) <= fuel)%nat ->
  schedule fuel I Wt i c = (fun j => (j, c)) <$> seqZ i (I - i).
Proof.
  intros Hne H1. induction fuel as [|fuel IH]; intros i c Hc Hf.
  - rewrite schedule_nil by lia. by rewrite seqZ_nil by lia.
  - destruct (decide (i < I)) as [Hi|Hi].
    + rewrite schedule_unfold, guard_true by done.
      unfold advance. rewrite !bool_decide_eq_false_2 by done. simpl.
      rewrite (seqZ_step i) by lia. rewrite fmap_cons, IH by lia.
      do 3 f_equal. lia.
    + rewrite schedule_nil by lia. by rewrite seqZ_nil by lia.
Qed.

(** The schedule obeys the reconciliation rule. *)
Lemma schedule_reconcile I Wt fuel :
  forall iC wC, (chan_measure I Wt iC wC <= fuel)%nat ->
  reconcile I Wt iC wC (schedule fuel I Wt iC wC).
Proof.
  induction fuel as [|fuel IH]; intros iC wC Hf.
  - rewrite schedule_nil; [constructor|]; unfold chan_measure in Hf; lia.
  - destruct (decide (iC < I /\ wC < Wt)) as [[Hi Hw]|Hn].
    2:{ rewrite schedule_nil by done. by constructor. }
    rewrite schedule_unfold, guard_true by done.
    pose proof (advance_step I Wt iC wC Hi Hw) as (_ & _ & Hm).
    specialize (IH (advance I Wt (iC, wC)).1 (advance I Wt (iC, wC)).2).
    revert IH Hm. unfold advance.
    destruct (decide (I = Wt)) as [He|He].
    { rewrite bool_decide_eq_true_2 by done. simpl. intros IH Hm.
      apply reconcile_both; try done. apply IH. lia. }
    rewrite bool_decide_eq_false_2 by done.
    destruct (decide (I = 1)) as [H1|H1].
    { rewrite bool_decide_eq_true_2 by done. simpl. intros IH Hm.
      apply reconcile_weights; try done. apply IH. lia. }
    rewrite bool_decide_eq_false_2 by done. simpl. intros IH Hm.
    apply reconcile_inputs; try done. apply IH. lia.
Qed.

(** The rule determines the visited pairs. *)
Lemma reconcile_unique I Wt iC wC l1 l2 :
  reconcile I Wt iC wC l1 -> reconcile I Wt iC wC l2 -> l1 = l2.
Proof.
  intros Hr1. revert l2.
  induction Hr1; intros l2 Hr2; inversion Hr2; subst; try done; try lia;
    f_equal; auto.
Qed.
(** Position [j] of the schedule: the start moved [j] times. *)
Lemma schedule_lookup I Wt fuel :
  forall iC wC (j : nat) p,
  schedule fuel I Wt iC wC !! j = Some p ->
  p = ((advance I Wt (0, 0)).1 * Z.of_nat j + iC,
       (advance I Wt (0, 0)).2 * Z.of_nat j + wC).
Proof.
  induction fuel as [|fuel IH]; intros iC wC j p.
  - simpl. by case_match.
  - rewrite schedule_unfold. case_match; [|done].
    destruct j as [|j]; simpl.
    + intros [= <-]. f_equal; lia.
    + intros Hj. apply IH in Hj. subst p.
      unfold advance. repeat case_match; simpl; f_equal; lia.
Qed.

Lemma schedule_flag I Wt fuel (j : nat) p :
  schedule fuel I Wt 0 0 !! j = Some p ->
  bool_decide (p.1 = p.2) =
  match j with O => true | S _ => bool_decide (I = Wt) end.
Proof.
  intros Hj. apply schedule_lookup in Hj. subst p. simpl.
  destruct j as [|j]. { apply bool_decide_eq_true_2. lia. }
  unfold advance.
  destruct (decide (I = Wt)) as [He|He].
  { rewrite !(bool_decide_eq_true_2 (I = Wt)) by done. simpl.
    apply bool_decide_eq_true_2. lia. }
  rewrite !(bool_decide_eq_false_2 (I = Wt)) by done.
  case_match; simpl; first [done | apply bool_decide_eq_false_2; lia].
Qed.

Lemma tile_ptr_elem_of t n h x c a :
  tile_ptr t n h x c = Some a -> a ∈ tt_tiles t.
Proof.
  unfold tile_ptr, tile_at. destruct (startIndex t n h x c); simpl; [|done].
  case_match; [|done]. apply list_elem_of_lookup_2.
Qed.

(** Lifting an invariant of the body to a [for] loop. *)
Lemma for_each_final (R : world elem -> world elem -> Prop)
    (body : Z -> M unit) (l : list Z) :
  (forall w, R w w) -> (forall w1 w2 w3, R w1 w2 -> R w2 w3 -> R w1 w3) ->
  (forall x w, R w (final_world (body x w))) ->
  forall w, R w (final_world (for_each l body w)).
Proof.
  intros Hrefl Htrans Hbody. induction l as [|x l IH]; intros w; simpl.
  - apply Hrefl.
  - unfold bind. pose proof (Hbody x w) as Hx.
    destruct (body x w) as [[] w1|f w1]; simpl in *; [|done].
    eapply Htrans; [exact Hx|apply IH].
Qed.

Lemma evolves_refl outputs P w : evolves outputs P w w.
Proof.
  split; [done|]. split; [done|]. exists []. by rewrite app_nil_r.
Qed.

Lemma evolves_trans outputs P w1 w2 w3 :
  evolves outputs P w1 w2 -> evolves outputs P w2 w3 -> evolves outputs P w1 w3.
Proof.
  intros (S1 & F1 & c1 & K1 & P1) (S2 & F2 & c2 & K2 & P2).
  split; [congruence|]. split.
  { intros a Ha. rewrite F2, F1; done. }
  exists (c1 ++ c2). split.
  - by rewrite K2, K1, app_assoc.
  - apply Forall_app. split; [done|]. by rewrite <- S1.
Qed.

Lemma call_at_issued sh op inputs weights outputs N H W iC wC c :
  call_at sh op inputs weights outputs N H W iC wC c ->
  issued op inputs weights outputs sh c /\
  tile_ptr outputs N H 0 W = Some (kc_results c).
Proof.
  intros Hc. pose proof Hc as (E1 & E2 & E3 & E4 & E5 & _ & _ & _ & E9 & _).
  split; [|done]. unfold issued. by rewrite E1, E2, E3, E4, E5.
Qed.

Lemma chan_loop_evolves op inputs weights outputs N H W I Wt fuel iC wC w :
  evolves outputs (issued op inputs weights outputs) w
    (final_world (chan_loop kernel fuel op inputs weights outputs N H W I Wt iC wC w)).
Proof.
  destruct (chan_loop_inv op inputs weights outputs N H W I Wt fuel iC wC w)
    as (calls & sch & Hk & Hp & Hf & Hs & Hframe & Hok).
  assert (Forall (fun c => issued op inputs weights outputs (shapes (heap w)) c /\
                           tile_ptr outputs N H 0 W = Some (kc_results c)) calls)
    as Hall.
  { clear -Hf. induction Hf as [|p c sch calls Hc _ IH]; constructor; [|done].
    by eapply call_at_issued. }
  split; [done|]. split.
  - intros a Ha. apply Hframe. intros (c & -> & Hc)%list_elem_of_fmap.
    rewrite Forall_forall in Hall. apply Hall in Hc as [_ Hc].
    by apply tile_ptr_elem_of in Hc.
  - exists calls. split; [done|]. eapply Forall_impl; [exact Hall|]. by intros ? [? ?].
Qed.

Lemma runNHWC_evolves fuel op inputs weights outputs w :
  evolves outputs (issued op inputs weights outputs) w
    (final_world (runNHWC kernel fuel op inputs weights outputs w)).
Proof.
  unfold runNHWC.
  apply for_each_final; [apply evolves_refl|apply evolves_trans|]. intros N w1.
  apply for_each_final; [apply evolves_refl|apply evolves_trans|]. intros H w2.
  apply for_each_final; [apply evolves_refl|apply evolves_trans|]. intros W w3.
  apply chan_loop_evolves.
Qed.

Lemma call_at_cursors sh op inputs weights outputs N H W sch calls :
  Forall2 (fun p c => call_at sh op inputs weights outputs N H W p.1 p.2 c)
          sch calls ->
  cursor <$> calls = sch.
Proof.
  induction 1 as [|[i c] k sch calls Hc _ IH]; [done|].
  rewrite fmap_cons, IH. f_equal.
  destruct Hc as (_ & _ & _ & E4 & E5 & _). unfold cursor. simpl in *. congruence.
Qed.

(** With well-formed tilings and enough fuel the loop runs to completion
    and makes exactly the scheduled calls. *)
Lemma chan_loop_ok op inputs weights outputs N H W fuel w :
  let I := shape_at (tt_shape inputs) 3 in
  let Wt := shape_at (tt_shape weights) 3 in
  tiling_ok (shapes (heap w)) inputs weights outputs ->
  0 <= N < shape_at (tt_shape inputs) 0 ->
  0 <= H < shape_at (tt_shape inputs) 1 ->
  0 <= W < shape_at (tt_shape weights) 0 ->
  (chan_measure I Wt 0 0 <= fuel)%nat ->
  exists w' calls,
    chan_loop kernel fuel op inputs weights outputs N H W I Wt 0 0 w = Ok tt w' /\
    kernel_calls (trace w') = kernel_calls (trace w) ++ calls /\
    Forall2 (fun p c => call_at (shapes (heap w)) op inputs weights outputs
                                N H W p.1 p.2 c)
            (schedule fuel I Wt 0 0) calls.
Proof.
  intros I Wt Hok HN HH HW Hfuel.
  pose proof (chan_loop_total op inputs weights outputs N H W fuel 0 0 w
                Hok HN HH HW ltac:(lia) ltac:(lia) Hfuel) as Ht.
  destruct (chan_loop_inv op inputs weights outputs N H W I Wt fuel 0 0 w)
    as (calls & sch & Hk & Hp & Hf & Hs & Hframe & Hsch).
  fold I Wt in Ht.
  destruct (chan_loop kernel fuel op inputs weights outputs N H W I Wt 0 0 w)
    as [[] w'|f w']; [|done].
  exists w', calls. split; [done|]. split; [done|].
  by rewrite <- Hsch.
Qed.

(** When the loop ends normally the schedule is complete: more fuel would
    not add a call. *)
Lemma ok_schedule_stable op inputs weights outputs N H W I Wt fuel :
  forall iC wC w (n : nat),
  is_ok (chan_loop kernel fuel op inputs weights outputs N H W I Wt iC wC w) ->
  schedule (fuel + n) I Wt iC wC = schedule fuel I Wt iC wC.
Proof.
  induction fuel as [|fuel IH]; intros iC wC w n.
  - destruct (decide (iC < I /\ wC < Wt)) as [[Hi Hw]|Hn].
    + simpl. by rewrite guard_true.
    + intros _. by rewrite !schedule_nil.
  - rewrite chan_loop_unfold. replace (S fuel + n)%nat with (S (fuel + n)) by lia.
    rewrite !schedule_unfold. case_match; [|done].
    destruct (conv_tile kernel op inputs weights outputs N H W iC wC w)
      as [[] w1|f w1]; [|done].
    intros Hok. f_equal. by eapply IH.
Qed.

Lemma Forall2_lookup_flag {sh op inputs weights outputs N H W sch calls}
    (j : nat) c :
  Forall2 (fun p c => call_at sh op inputs weights outputs N H W p.1 p.2 c)
          sch calls ->
  calls !! j = Some c ->
  exists p, sch !! j = Some p /\ kc_iC c = p.1 /\ kc_wC c = p.2 /\
            kc_flag c = bool_decide (p.1 = p.2) /\
            tile_ptr outputs N H 0 W = Some (kc_results c).
Proof.
  intros Hf Hj. destruct (Forall2_lookup_r _ _ _ _ _ Hf Hj) as (p & Hp & Hc).
  exists p. destruct Hc as (_ & _ & _ & E4 & E5 & E6 & _ & _ & E9 & _). done.
Qed.

(** C1 (as amended): the flag handed to the kernel is the cursor-equality
    test [iC == wC], in every call of every execution of [runNHWC].  In each
    (N,H,W) iteration all calls target the output tile at (N,H,0,W); the
    first call receives [true], and every later call receives [true] when
    the input and weight channel-tile counts are equal and [false]
    otherwise.  With both counts equal to 2 the two calls both receive
    [true]. *)
Theorem flag_is_cursor_equality fuel op inputs weights outputs w :
  let I := shape_at (tt_shape inputs) 3 in
  let Wt := shape_at (tt_shape weights) 3 in
  (exists calls,
     kernel_calls (trace (final_world
       (runNHWC kernel fuel op inputs weights outputs w)))
     = kernel_calls (trace w) ++ calls /\
     Forall flag_is_equality calls) /\
  forall N H W w1,
  let o := chan_loop kernel fuel op inputs weights outputs N H W I Wt 0 0 w1 in
  exists calls,
    kernel_calls (trace (final_world o)) = kernel_calls (trace w1) ++ calls /\
    (forall (j : nat) c, calls !! j = Some c ->
       kc_flag c = bool_decide (kc_iC c = kc_wC c) /\
       kc_flag c = match j with O => true | S _ => bool_decide (I = Wt) end /\
       tile_ptr outputs N H 0 W = Some (kc_results c)) /\
    (is_ok o -> I = 2 -> Wt = 2 -> kc_flag <$> calls = [true; true]).
Proof.
  intros I Wt. split.
  { destruct (runNHWC_evolves fuel op inputs weights outputs w)
      as (_ & _ & calls & Hk & Hall).
    exists calls. split; [done|].
    eapply Forall_impl; [exact Hall|]. intros c Hc.
    destruct Hc as (_ & _ & _ & _ & _ & E6 & _). exact E6. }
  intros N H W w1 o.
  destruct (chan_loop_inv op inputs weights outputs N H W I Wt fuel 0 0 w1)
    as (calls & sch & Hk & Hp & Hf & Hs & Hframe & Hsch).
  exists calls. split; [done|]. split.
  - intros j c Hj.
    destruct (Forall2_lookup_flag j c Hf Hj) as (p & Hpj & Ei & Ew & Efl & Eo).
    split; [by rewrite Ei, Ew|]. split; [|done].
    rewrite Efl. eapply schedule_flag.
    eapply prefix_lookup_Some; [exact Hpj|exact Hp].
  - intros Hok HI HW. fold o in Hsch. specialize (Hsch Hok).
    pose proof (ok_schedule_stable op inputs weights outputs N H W I Wt fuel
                  0 0 w1 2 Hok) as Hst.
    rewrite schedule_both in Hst by lia. rewrite <- Hst in Hsch.
    rewrite HI in Hsch. change (seqZ 0 (2 - 0)) with [0; 1] in Hsch.
    subst sch. clear -Hf.
    inversion Hf as [|p1 c1 s1 l1 Hc1 Hf1]; subst.
    inversion Hf1 as [|p2 c2 s2 l2 Hc2 Hf2]; subst.
    inversion Hf2; subst.
    destruct Hc1 as (_ & _ & _ & _ & _ & E1 & _).
    destruct Hc2 as (_ & _ & _ & _ & _ & E2 & _).
    simpl in *. by rewrite E1, E2.
Qed.

(** C2: in one (N,H,W) iteration the cursors start at (0,0); while both are
    below their channel extents the kernel is called on (input tile at iC,
    weight tile at wC, output tile at W), after which both cursors advance
    when the two channel extents are equal, and only wC advances when they
    differ and the input channel extent is 1. *)
Theorem reconciliation_rule fuel op inputs weights outputs N H W w :
  let I := shape_at (tt_shape inputs) 3 in
  let Wt := shape_at (tt_shape weights) 3 in
  tiling_ok (shapes (heap w)) inputs weights outputs ->
  0 <= N < shape_at (tt_shape inputs) 0 ->
  0 <= H < shape_at (tt_shape inputs) 1 ->
  0 <= W < shape_at (tt_shape weights) 0 ->
  (chan_measure I Wt 0 0 <= fuel)%nat ->
  exists w' calls,
    chan_loop kernel fuel op inputs weights outputs N H W I Wt 0 0 w = Ok tt w' /\
    kernel_calls (trace w') = kernel_calls (trace w) ++ calls /\
    reconcile I Wt 0 0 (cursor <$> calls) /\
    Forall (fun c =>
      kc_W c = W /\
      tile_ptr inputs N H 0 (kc_iC c) = Some (kc_inputs c) /\
      tile_ptr weights W 0 0 (kc_wC c) = Some (kc_weights c) /\
      tile_ptr outputs N H 0 W = Some (kc_results c)) calls.
Proof.
  intros I Wt Hok HN HH HW Hfuel.
  destruct (chan_loop_ok op inputs weights outputs N H W fuel w Hok HN HH HW Hfuel)
    as (w' & calls & Hrun & Hk & Hf).
  exists w', calls. split; [done|]. split; [done|]. split.
  - rewrite (call_at_cursors _ _ _ _ _ _ _ _ _ _ Hf). by apply schedule_reconcile.
  - clear -Hf. induction Hf as [|p c sch calls Hc _ IH]; constructor; [|done].
    destruct Hc as (_ & _ & E3 & E4 & E5 & _ & E7 & E8 & E9 & _).
    by rewrite E4, E5.
Qed.

Lemma fmap_seqZ_ext {A} (f g : Z -> A) m len :
  (forall j, m <= j < m + len -> f j = g j) -> f <$> seqZ m len = g <$> seqZ m len.
Proof.
  intros Hfg. apply list_fmap_ext. intros i x Hx.
  apply lookup_seqZ in Hx as [-> Hx]. apply Hfg. lia.
Qed.

Lemma NoDup_fmap_seqZ {A} (f : Z -> A) m len :
  (forall i j, f i = f j -> i = j) -> NoDup (f <$> seqZ m len).
Proof.
  intros Hinj. apply NoDup_fmap_2_strong; [|apply NoDup_seqZ].
  intros x y _ _. apply Hinj.
Qed.

(** For counts in {1, k} the schedule is the required one: no pair twice,
    every input tile and every weight tile taken. *)
Lemma schedule_cover I Wt k fuel :
  1 < k -> I = 1 \/ I = k -> Wt = 1 \/ Wt = k ->
  (chan_measure I Wt 0 0 <= fuel)%nat ->
  let sch := schedule fuel I Wt 0 0 in
  sch = required_pairs I Wt /\ NoDup sch /\
  (forall i, 0 <= i < I -> exists c, (i, c) ∈ sch) /\
  (forall c, 0 <= c < Wt -> exists i, (i, c) ∈ sch).
Proof.
  intros Hk HI HW Hfuel sch. unfold chan_measure in Hfuel. unfold required_pairs.
  destruct (decide (I = Wt)) as [He|He].
  - assert (sch = (fun j => (j, j)) <$> seqZ 0 (I - 0)) as ->.
    { apply schedule_both; [done|lia]. }
    rewrite Z.sub_0_r. subst Wt. rewrite Z.max_id.
    split. { apply fmap_seqZ_ext. intros j Hj. f_equal; lia. }
    split. { apply NoDup_fmap_seqZ. by intros i j [= ->]. }
    split; intros i Hi; exists i; apply list_elem_of_fmap; exists i;
      (split; [done|apply elem_of_seqZ; lia]).
  - destruct (decide (I = 1)) as [H1|H1].
    + assert (sch = (fun j => (0, j)) <$> seqZ 0 (Wt - 0)) as ->.
      { apply schedule_weights; try done; lia. }
      rewrite Z.sub_0_r. replace (Z.max I Wt) with Wt by lia.
      split. { apply fmap_seqZ_ext. intros j Hj. f_equal; lia. }
      split. { apply NoDup_fmap_seqZ. by intros i j [= ->]. }
      split.
      * intros i Hi. exists 0. apply list_elem_of_fmap. exists 0.
        split; [f_equal; lia|apply elem_of_seqZ; lia].
      * intros c Hc. exists 0. apply list_elem_of_fmap. exists c.
        split; [done|apply elem_of_seqZ; lia].
    + assert (sch = (fun j => (j, 0)) <$> seqZ 0 (I - 0)) as ->.
      { apply schedule_inputs; try done; lia. }
      rewrite Z.sub_0_r. replace (Z.max I Wt) with I by lia.
      split. { apply fmap_seqZ_ext. intros j Hj. f_equal; lia. }
      split. { apply NoDup_fmap_seqZ. by intros i j [= ->]. }
      split.
      * intros i Hi. exists 0. apply list_elem_of_fmap. exists i.
        split; [done|apply elem_of_seqZ; lia].
      * intros c Hc. exists 0. apply list_elem_of_fmap. exists 0.
        split; [f_equal; lia|apply elem_of_seqZ; lia].
Qed.

(** C3: for channel-tile counts in {1, k}, k > 1, one (N,H,W) iteration
    terminates and calls the kernel on exactly the pairs needed to cover the
    channel depth, each once: every input channel tile and every weight
    channel tile is taken.  With counts 1 and 4 there are exactly 4 calls,
    wC running 0,1,2,3 while iC stays 0. *)
Theorem reconciliation_coverage fuel op inputs weights outputs N H W w k :
  let I := shape_at (tt_shape inputs) 3 in
  let Wt := shape_at (tt_shape weights) 3 in
  1 < k -> I = 1 \/ I = k -> Wt = 1 \/ Wt = k ->
  tiling_ok (shapes (heap w)) inputs weights outputs ->
  0 <= N < shape_at (tt_shape inputs) 0 ->
  0 <= H < shape_at (tt_shape inputs) 1 ->
  0 <= W < shape_at (tt_shape weights) 0 ->
  (chan_measure I Wt 0 0 <= fuel)%nat ->
  exists w' calls,
    chan_loop kernel fuel op inputs weights outputs N H W I Wt 0 0 w = Ok tt w' /\
    kernel_calls (trace w') = kernel_calls (trace w) ++ calls /\
    cursor <$> calls = required_pairs I Wt /\
    NoDup (cursor <$> calls) /\
    (forall i, 0 <= i < I -> exists c, (i, c) ∈ cursor <$> calls) /\
    (forall c, 0 <= c < Wt -> exists i, (i, c) ∈ cursor <$> calls) /\
    (I = 1 -> Wt = 4 -> cursor <$> calls = [(0, 0); (0, 1); (0, 2); (0, 3)]).
Proof.
  intros I Wt Hk HI HWt Hok HN HH HW Hfuel.
  destruct (chan_loop_ok op inputs weights outputs N H W fuel w Hok HN HH HW Hfuel)
    as (w' & calls & Hrun & Hcalls & Hf).
  apply call_at_cursors in Hf. fold I Wt in Hf.
  destruct (schedule_cover I Wt k fuel Hk HI HWt Hfuel) as (Hreq & Hnd & Hci & Hcw).
  exists w', calls. rewrite Hf.
  repeat (split; [done|]).
  intros E1 E4. rewrite Hreq, E1, E4. reflexivity.
Qed.

(** C10: with unequal channel-tile counts, both above 1, one (N,H,W)
    iteration still terminates; it makes exactly [inputChanTiles] kernel
    calls, iC running over all input channel tiles while wC stays 0, so only
    the weight channel tile 0 is ever used. *)
Theorem unequal_counts_inputs_only fuel op inputs weights outputs N H W w :
  let I := shape_at (tt_shape inputs) 3 in
  let Wt := shape_at (tt_shape weights) 3 in
  I <> Wt -> 1 < I -> 1 < Wt ->
  tiling_ok (shapes (heap w)) inputs weights outputs ->
  0 <= N < shape_at (tt_shape inputs) 0 ->
  0 <= H < shape_at (tt_shape inputs) 1 ->
  0 <= W < shape_at (tt_shape weights) 0 ->
  (chan_measure I Wt 0 0 <= fuel)%nat ->
  exists w' calls,
    chan_loop kernel fuel op inputs weights outputs N H W I Wt 0 0 w = Ok tt w' /\
    kernel_calls (trace w') = kernel_calls (trace w) ++ calls /\
    cursor <$> calls = (fun j => (j, 0)) <$> seqZ 0 I /\
    Z.of_nat (length calls) = I /\
    Forall (fun c => kc_wC c = 0 /\
                     tile_ptr weights W 0 0 0 = Some (kc_weights c)) calls.
Proof.
  intros I Wt Hne HI HWt Hok HN HH HW Hfuel.
  destruct (chan_loop_ok op inputs weights outputs N H W fuel w Hok HN HH HW Hfuel)
    as (w' & calls & Hrun & Hcalls & Hf).
  fold I Wt in Hf.
  assert (schedule fuel I Wt 0 0 = (fun j => (j, 0)) <$> seqZ 0 I) as Hsch.
  { rewrite schedule_inputs; try done; try lia.
    - by rewrite Z.sub_0_r.
    - unfold chan_measure in Hfuel. lia. }
  exists w', calls. split; [done|]. split; [done|].
  pose proof (call_at_cursors _ _ _ _ _ _ _ _ _ _ Hf) as Hcur.
  split; [by rewrite Hcur|]. split.
  { rewrite <- (length_fmap cursor), Hcur, Hsch, length_fmap, length_seqZ. lia. }
  rewrite Hsch in Hf. clear -Hf. remember (seqZ 0 I) as l eqn:El. clear El.
  revert calls Hf. induction l as [|j l IH]; intros calls Hf.
  - inversion Hf. constructor.
  - rewrite fmap_cons in Hf. inversion Hf as [|p c s cs Hc Hrest]; subst.
    constructor; [|by apply IH].
    destruct Hc as (_ & _ & _ & _ & E5 & _ & _ & E8 & _). simpl in *.
    by rewrite E5.
Qed.

(** C7: whatever the outcome of [runNHWC], the only buffers that change are
    those of tiles of the output tiled tensor, and shapes never change; so
    every input or weight tile that is not also an output tile keeps its
    contents. *)
Theorem runNHWC_writes_only_outputs fuel op inputs weights outputs w :
  let w' := final_world (runNHWC kernel fuel op inputs weights outputs w) in
  (forall a, a ∉ tt_tiles outputs -> heap w' !! a = heap w !! a) /\
  (forall a, a ∈ tt_tiles inputs ++ tt_tiles weights ->
             a ∉ tt_tiles outputs -> heap w' !! a = heap w !! a) /\
  shapes (heap w') = shapes (heap w).
Proof.
  intros w'.
  destruct (runNHWC_evolves fuel op inputs weights outputs w) as (Hs & Hfr & _).
  split; [done|]. split; [|done]. intros a _. apply Hfr.
Qed.

Lemma tiling_requests_app tr1 tr2 :
  tiling_requests (tr1 ++ tr2) = tiling_requests tr1 ++ tiling_requests tr2.
Proof. unfold tiling_requests. apply omap_app. Qed.

Lemma chan_loop_requests op inputs weights outputs N H W I Wt fuel :
  forall iC wC w,
  same_requests w
    (final_world (chan_loop kernel fuel op inputs weights outputs N H W I Wt iC wC w)).
Proof.
  unfold same_requests.
  induction fuel as [|fuel IH]; intros iC wC w.
  - simpl. by case_match.
  - rewrite chan_loop_unfold. case_match; [|done].
    pose proof (conv_tile_inv op inputs weights outputs N H W iC wC w) as Hb.
    destruct (conv_tile kernel op inputs weights outputs N H W iC wC w)
      as [[] w1|f w1].
    + destruct Hb as (c & ii & wi & oi & Htr & _).
      rewrite IH, Htr, tiling_requests_app. simpl. by rewrite app_nil_r.
    + destruct Hb as (_ & _ & _ & [Htr|(ii & wi & oi & Htr)]); simpl; rewrite Htr;
        [done|]. rewrite tiling_requests_app. simpl. by rewrite app_nil_r.
Qed.

Lemma runNHWC_requests fuel op inputs weights outputs w :
  same_requests w (final_world (runNHWC kernel fuel op inputs weights outputs w)).
Proof.
  assert (forall w, same_requests w w) as Hrefl by done.
  assert (forall w1 w2 w3, same_requests w1 w2 -> same_requests w2 w3 ->
                           same_requests w1 w3) as Htrans.
  { unfold same_requests. congruence. }
  unfold runNHWC.
  apply for_each_final; [done..|]. intros N w1.
  apply for_each_final; [done..|]. intros H w2.
  apply for_each_final; [done..|]. intros W w3.
  apply chan_loop_requests.
Qed.

Lemma alloc_all_spec (ts : list (Tensor elem)) :
  forall w, exists l w',
    alloc_all ts w = Ok l w' /\ trace w' = trace w /\
    (forall a t, heap w !! a = Some t -> heap w' !! a = Some t).
Proof.
  induction ts as [|t ts IH]; intros w; simpl.
  - by exists [], w.
  - unfold bind, alloc at 1.
    set (a := fresh (dom (heap w))).
    destruct (IH (mkWorld (<[a := t]> (heap w)) (trace w))) as (l & w' & -> & Htr & Hh).
    exists (a :: l), w'. split; [done|]. split; [done|].
    intros b tb Hb. apply Hh. simpl. rewrite lookup_insert_ne; [done|].
    intros <-. pose proof (is_fresh (dom (heap w))) as Hfr.
    apply Hfr. apply elem_of_dom. by eexists.
Qed.

Lemma generateTiledTensor_spec src tileShape halos t w :
  heap w !! src = Some t ->
  exists tt w',
    generateTiledTensor zero src tileShape halos w = Ok tt w' /\
    trace w' = trace w ++ [EvGenerateTiled src tileShape halos] /\
    (forall a t, heap w !! a = Some t -> heap w' !! a = Some t).
Proof.
  intros Hsrc. unfold generateTiledTensor, bind, deref, emit. rewrite Hsrc.
  destruct (generate_tiles zero t tileShape halos) as [grid tiles].
  destruct (alloc_all_spec tiles
              (mkWorld (heap w) (trace w ++ [EvGenerateTiled src tileShape halos])))
    as (l & w' & -> & Htr & Hh).
  eexists _, w'. split; [done|]. split; [done|]. exact Hh.
Qed.

(** With live tensors of layout NHWC, [run] always gets to the tile loops:
    it logs, asks for the tile shapes and the three tilings, and continues
    as [runNHWC] on the tiled tensors it obtained. *)
Lemma run_reaches_loop fuel op w ti tk to :
  heap w !! op_input op = Some ti ->
  heap w !! op_kernels op = Some tk ->
  heap w !! op_output op = Some to ->
  getLayout (t_shape ti) = NHWC ->
  getLayout (t_shape tk) = NHWC ->
  getLayout (t_shape to) = NHWC ->
  let tileShapes :=
    computeBasicTileShapes kNumPEs kNumMaccsPerPE op
                           (t_shape ti) (t_shape tk) (t_shape to) in
  exists tiledInputs tiledWeights tiledOutputs w',
    run kernel computeBasicTileShapes zero fuel op w =
    runNHWC kernel fuel op tiledInputs tiledWeights tiledOutputs w' /\
    trace w' = trace w ++
      [EvDebug (op_kernels op); EvComputeTileShapes;
       EvGenerateTiled (op_input op) (tc_inputs tileShapes)
         [0; weightRows op `quot` 2; weightCols op `quot` 2; 0];
       EvGenerateTiled (op_kernels op) (tc_weights tileShapes) [0; 0; 0; 0];
       EvGenerateTiled (op_output op) (tc_outputs tileShapes) [0; 0; 0; 0]].
Proof.
  intros Hi Hk Ho Li Lk Lo tileShapes.
  unfold run, bind at 1 2 3, deref. rewrite Hi, Hk, Ho.
  unfold bind at 1 2 3, assert. rewrite !bool_decide_eq_true_2 by done.
  unfold ret, bind at 1 2, emit. cbn [heap trace].
  fold tileShapes.
  set (w0 := mkWorld (heap w) ((trace w ++ [EvDebug (op_kernels op)]) ++ [EvComputeTileShapes])).
  destruct (generateTiledTensor_spec (op_input op) (tc_inputs tileShapes)
              [0; weightRows op `quot` 2; weightCols op `quot` 2; 0] ti w0 Hi)
    as (t1 & w1 & E1 & T1 & H1).
  unfold bind at 1. rewrite E1.
  destruct (generateTiledTensor_spec (op_kernels op) (tc_weights tileShapes)
              [0; 0; 0; 0] tk w1 (H1 _ _ Hk)) as (t2 & w2 & E2 & T2 & H2).
  unfold bind at 1. rewrite E2.
  destruct (generateTiledTensor_spec (op_output op) (tc_outputs tileShapes)
              [0; 0; 0; 0] to w2 (H2 _ _ (H1 _ _ Ho))) as (t3 & w3 & E3 & T3 & H3).
  unfold bind at 1. rewrite E3.
  exists t1, t2, t3, w3. split; [done|].
  rewrite T3, T2, T1. subst w0. cbn [trace].
  by rewrite <- !app_assoc.
Qed.

(** C4: [run] asks for three tilings, in this order: the input tensor with
    halo [weightRows / 2] and [weightCols / 2] on the two spatial axes and 0
    on the batch and channel axes, then the weights and the output tensor
    with an all-zero halo. *)
Theorem run_halos fuel op w ti tk to :
  heap w !! op_input op = Some ti ->
  heap w !! op_kernels op = Some tk ->
  heap w !! op_output op = Some to ->
  getLayout (t_shape ti) = NHWC ->
  getLayout (t_shape tk) = NHWC ->
  getLayout (t_shape to) = NHWC ->
  let tileShapes :=
    computeBasicTileShapes kNumPEs kNumMaccsPerPE op
                           (t_shape ti) (t_shape tk) (t_shape to) in
  tiling_requests
    (trace (final_world (run kernel computeBasicTileShapes zero fuel op w))) =
  tiling_requests (trace w) ++
  [(op_input op, tc_inputs tileShapes,
    [0; weightRows op `quot` 2; weightCols op `quot` 2; 0]);
   (op_kernels op, tc_weights tileShapes, [0; 0; 0; 0]);
   (op_output op, tc_outputs tileShapes, [0; 0; 0; 0])].
Proof.
  intros Hi Hk Ho Li Lk Lo tileShapes.
  destruct (run_reaches_loop fuel op w ti tk to Hi Hk Ho Li Lk Lo)
    as (t1 & t2 & t3 & w' & -> & Htr).
  rewrite (runNHWC_requests fuel op t1 t2 t3 w'), Htr.
  rewrite tiling_requests_app. reflexivity.
Qed.

(** C6: [run] asserts the NHWC layout of the input, the weights and the
    output tensor before it does anything else: when one of them has another
    layout the run stops on a failed assertion in the world it started in,
    nothing computed, tiled or logged. *)
Theorem run_asserts_layout fuel op w ti tk to :
  heap w !! op_input op = Some ti ->
  heap w !! op_kernels op = Some tk ->
  heap w !! op_output op = Some to ->
  getLayout (t_shape ti) <> NHWC \/ getLayout (t_shape tk) <> NHWC \/
  getLayout (t_shape to) <> NHWC ->
  run kernel computeBasicTileShapes zero fuel op w = Fault AssertionFailed w.
Proof.
  intros Hi Hk Ho Hl.
  unfold run, bind at 1 2 3, deref. rewrite Hi, Hk, Ho.
  unfold bind at 1, assert.
  destruct (decide (getLayout (t_shape ti) = NHWC)) as [Li|Li].
  2:{ by rewrite bool_decide_eq_false_2. }
  rewrite bool_decide_eq_true_2 by done. unfold ret at 1. unfold bind at 1.
  destruct (decide (getLayout (t_shape tk) = NHWC)) as [Lk|Lk].
  2:{ by rewrite bool_decide_eq_false_2. }
  rewrite bool_decide_eq_true_2 by done. unfold ret at 1. unfold bind at 1.
  destruct (decide (getLayout (t_shape to) = NHWC)) as [Lo|Lo].
  2:{ by rewrite bool_decide_eq_false_2. }
  tauto.
Qed.

Lemma for_each_ext (body body' : Z -> M unit) (l : list Z) :
  (forall x (w : world elem), body x w = body' x w) ->
  forall w, for_each l body w = for_each l body' w.
Proof.
  intros Hext. induction l as [|x l IH]; intros w; simpl; [done|].
  unfold bind. rewrite Hext. by destruct (body' x w).
Qed.

(** A [for] loop whose body keeps an invariant and cannot fail under it
    cannot fail either. *)
Lemma for_each_ok (Inv : world elem -> Prop) (body : Z -> M unit) (l : list Z) :
  (forall x w, x ∈ l -> Inv w ->
               is_ok (body x w) /\ Inv (final_world (body x w))) ->
  forall w, Inv w ->
            is_ok (for_each l body w) /\ Inv (final_world (for_each l body w)).
Proof.
  induction l as [|x l IH]; intros Hbody w Hw; simpl; [done|].
  unfold bind. destruct (Hbody x w) as [Hok Hinv]; [left|done|].
  destruct (body x w) as [[] w1|f w1]; [|done].
  apply IH; [|done]. intros y w' Hy. apply Hbody. by right.
Qed.

Lemma chan_loop_ext fuel op op' inputs weights outputs N H W I Wt :
  getRowStride op' = getRowStride op -> getColStride op' = getColStride op ->
  forall iC wC w,
  chan_loop kernel fuel op' inputs weights outputs N H W I Wt iC wC w =
  chan_loop kernel fuel op inputs weights outputs N H W I Wt iC wC w.
Proof.
  intros Hr Hc. induction fuel as [|fuel IH]; intros iC wC w; [done|].
  rewrite !chan_loop_unfold. case_match; [|done].
  assert (conv_tile kernel op' inputs weights outputs N H W iC wC w =
          conv_tile kernel op inputs weights outputs N H W iC wC w) as ->.
  { unfold conv_tile. by rewrite Hr, Hc. }
  destruct (conv_tile kernel op inputs weights outputs N H W iC wC w); [|done].
  apply IH.
Qed.

(** [runNHWC] reads nothing of the operator but its strides. *)
Lemma runNHWC_ext fuel op op' inputs weights outputs w :
  getRowStride op' = getRowStride op -> getColStride op' = getColStride op ->
  runNHWC kernel fuel op' inputs weights outputs w =
  runNHWC kernel fuel op inputs weights outputs w.
Proof.
  intros Hr Hc. unfold runNHWC.
  apply for_each_ext. intros N w1.
  apply for_each_ext. intros H w2.
  apply for_each_ext. intros W w3.
  by apply chan_loop_ext.
Qed.

(** On well-formed tilings, with enough fuel for one channel loop,
    [runNHWC] runs to completion. *)
Lemma runNHWC_total fuel op inputs weights outputs w :
  tiling_ok (shapes (heap w)) inputs weights outputs ->
  (chan_measure (shape_at (tt_shape inputs) 3) (shape_at (tt_shape weights) 3)
                0 0 <= fuel)%nat ->
  is_ok (runNHWC kernel fuel op inputs weights outputs w).
Proof.
  intros Hok Hfuel.
  set (Inv := fun w : world elem => tiling_ok (shapes (heap w)) inputs weights outputs).
  unfold runNHWC.
  refine (proj1 (for_each_ok Inv _ _ _ w Hok)). intros N w1 HN Hw1.
  apply elem_of_seqZ in HN.
  apply for_each_ok; [|done]. intros H w2 HH Hw2. apply elem_of_seqZ in HH.
  apply for_each_ok; [|done]. intros W w3 HW Hw3. apply elem_of_seqZ in HW.
  split.
  - apply chan_loop_total; try done; lia.
  - unfold Inv.
    destruct (chan_loop_evolves op inputs weights outputs N H W
                (shape_at (tt_shape inputs) 3) (shape_at (tt_shape weights) 3)
                fuel 0 0 w3) as (Hs & _).
    by rewrite Hs.
Qed.

(** C5 (as amended): neither [run] nor [runNHWC] compares a weight tile's
    spatial extent with the configured kernel extent.  With live tensors of
    layout NHWC, [run] always gets to the tile loops: the layout assertions
    are its only checks.  [runNHWC] behaves the same whatever [weightRows]
    and [weightCols] are: on well-formed tilings it runs to completion
    without reporting an error, and hands each weight tile's dims to the
    kernel as they are stored. *)
Theorem weight_extent_unchecked :
  (forall fuel op w ti tk to,
     heap w !! op_input op = Some ti ->
     heap w !! op_kernels op = Some tk ->
     heap w !! op_output op = Some to ->
     getLayout (t_shape ti) = NHWC ->
     getLayout (t_shape tk) = NHWC ->
     getLayout (t_shape to) = NHWC ->
     exists tiledInputs tiledWeights tiledOutputs w',
       run kernel computeBasicTileShapes zero fuel op w =
       runNHWC kernel fuel op tiledInputs tiledWeights tiledOutputs w') /\
  (forall fuel op inputs weights outputs w rows cols,
     tiling_ok (shapes (heap w)) inputs weights outputs ->
     (chan_measure (shape_at (tt_shape inputs) 3)
                   (shape_at (tt_shape weights) 3) 0 0 <= fuel)%nat ->
     let o := runNHWC kernel fuel (with_kernel_extent rows cols op)
                      inputs weights outputs w in
     o = runNHWC kernel fuel op inputs weights outputs w /\
     is_ok o /\
     exists calls,
       kernel_calls (trace (final_world o)) = kernel_calls (trace w) ++ calls /\
       Forall (fun c => dims4 <$> shapes (heap w) !! kc_weights c
                        = Some (kc_weightsDims c)) calls).
Proof.
  split.
  { intros fuel op w ti tk to Hi Hk Ho Li Lk Lo.
    destruct (run_reaches_loop fuel op w ti tk to Hi Hk Ho Li Lk Lo)
      as (t1 & t2 & t3 & w' & Hrun & _).
    by exists t1, t2, t3, w'. }
  intros fuel op inputs weights outputs w rows cols Hok Hfuel o.
  assert (o = runNHWC kernel fuel op inputs weights outputs w) as Ho.
  { by apply runNHWC_ext. }
  split; [done|]. split.
  { rewrite Ho. by apply runNHWC_total. }
  rewrite Ho.
  destruct (runNHWC_evolves fuel op inputs weights outputs w)
    as (_ & _ & calls & Hk & Hall).
  exists calls. split; [done|].
  eapply Forall_impl; [exact Hall|]. intros c Hc.
  by destruct Hc as (_ & _ & _ & _ & _ & _ & _ & _ & _ & _ & E11 & _).
Qed.

End DriverFacts.

(** * Tiling: coordinates, tiles and their reassembly *)

Section TilingFacts.

Context {elem : Type}.
Variable zero : elem.

Lemma in_rangeb_Forall2 ds c :
  in_rangeb ds c = true <-> Forall2 (fun d x => 0 <= x < d) ds c.
Proof.
  revert c. induction ds as [|d ds IH]; intros [|x c]; simpl.
  - split; [constructor|done].
  - split; [done|]. inversion 1.
  - split; [done|]. inversion 1.
  - rewrite andb_true_iff, bool_decide_eq_true, IH. split.
    + intros [? ?]. by constructor.
    + inversion 1; subst. done.
Qed.

Lemma prod_Z_nonneg ds : Forall (fun d => 0 <= d) ds -> 0 <= prod_Z ds.
Proof. induction 1; simpl; [lia|]. unfold prod_Z in *. simpl. nia. Qed.

Lemma flat_index_acc ds : forall c acc,
  in_rangeb ds c = true ->
  flat_index ds c acc = acc * prod_Z ds + flat_index ds c 0 /\
  0 <= flat_index ds c 0 < prod_Z ds.
Proof.
  induction ds as [|d ds IH]; intros [|x c] acc Hr; simpl in Hr; try done.
  - unfold prod_Z. simpl. lia.
  - apply andb_true_iff in Hr as [Hx%bool_decide_eq_true Hr].
    simpl. destruct (IH c (acc * d + x) Hr) as [-> Hb].
    destruct (IH c x Hr) as [E _]. rewrite Z.mul_0_l, Z.add_0_l, E.
    unfold prod_Z in *. simpl. split; [ring|]. nia.
Qed.

Lemma coords_length ds :
  Forall (fun d => 0 <= d) ds -> length (coords ds) = Z.to_nat (prod_Z ds).
Proof.
  induction 1 as [|d ds Hd Hds IH]; [done|].
  assert (0 <= prod_Z ds) as Hp by (by apply prod_Z_nonneg).
  change (prod_Z (d :: ds)) with (d * prod_Z ds).
  change (coords (d :: ds)) with (zrange d ≫= fun x => cons x <$> coords ds).
  unfold zrange.
  rewrite Z2Nat.inj_mul by done.
  rewrite <- IH. clear IH.
  rewrite <- (length_seqZ 0 d). generalize (seqZ 0 d). intros l.
  induction l as [|x l IHl]; [done|].
  rewrite bind_cons, length_app, length_fmap, IHl. simpl. lia.
Qed.

Lemma bind_lookup_uniform {A B} (f : A -> list B) (m : nat) (l : list A) :
  (forall x, length (f x) = m) ->
  forall (i j : nat) x y,
  l !! i = Some x -> f x !! j = Some y -> (l ≫= f) !! (i * m + j)%nat = Some y.
Proof.
  intros Hlen. induction l as [|a l IH]; intros i j x y Hi Hj; [done|].
  rewrite bind_cons. destruct i as [|i]; simpl in *.
  - injection Hi as ->. by apply lookup_app_l_Some.
  - rewrite lookup_app_r; rewrite Hlen; [|lia].
    replace (m + i * m + j - m)%nat with (i * m + j)%nat by lia. by eapply IH.
Qed.

Lemma coords_lookup ds : forall c,
  in_rangeb ds c = true ->
  coords ds !! Z.to_nat (flat_index ds c 0) = Some c.
Proof.
  induction ds as [|d ds IH]; intros [|x c] Hr; simpl in Hr; try done.
  apply andb_true_iff in Hr as [Hx%bool_decide_eq_true Hr].
  simpl. destruct (flat_index_acc ds c (0 * d + x) Hr) as [-> Hb].
  assert (Forall (fun d => 0 <= d) ds) as Hnn.
  { apply in_rangeb_Forall2 in Hr. clear -Hr.
    induction Hr; constructor; [lia|done]. }
  replace (Z.to_nat ((0 * d + x) * prod_Z ds + flat_index ds c 0))
    with (Z.to_nat x * Z.to_nat (prod_Z ds) + Z.to_nat (flat_index ds c 0))%nat.
  2:{ pose proof (prod_Z_nonneg ds Hnn). nia. }
  assert (forall y : Z, length (cons y <$> coords ds) = Z.to_nat (prod_Z ds))
    as Hlen.
  { intros y. by rewrite length_fmap, coords_length. }
  apply (bind_lookup_uniform (fun y => cons y <$> coords ds) _ (zrange d) Hlen
           (Z.to_nat x) _ x).
  - unfold zrange. apply lookup_seqZ. lia.
  - rewrite list_lookup_fmap, IH by done. done.
Qed.

Lemma coords_in_range ds c : c ∈ coords ds -> in_rangeb ds c = true.
Proof.
  revert c. induction ds as [|d ds IH]; intros c; simpl.
  - by intros ->%list_elem_of_singleton.
  - intros (x & (c' & -> & Hc')%list_elem_of_fmap & Hx)%list_elem_of_bind.
    unfold zrange in Hx. apply elem_of_seqZ in Hx. simpl.
    rewrite bool_decide_eq_true_2 by lia. by apply IH.
Qed.

Lemma num_tiles_eq a : axis_ok a -> num_tiles a = (ax_n a - 1) / ax_t a + 1.
Proof.
  intros (Hn & Ht & Hh). unfold num_tiles.
  replace (ax_n a + ax_t a - 1) with (ax_n a - 1 + 1 * ax_t a) by lia.
  by rewrite Z.div_add by lia.
Qed.

Lemma num_tiles_pos a : axis_ok a -> 1 <= num_tiles a.
Proof.
  intros Hok. rewrite num_tiles_eq by done. destruct Hok as (Hn & Ht & Hh).
  pose proof (Z.div_pos (ax_n a - 1) (ax_t a)). lia.
Qed.

Lemma tile_start_bound a k :
  axis_ok a -> 0 <= k < num_tiles a -> 0 <= k * ax_t a < ax_n a.
Proof.
  intros Hok Hk. rewrite num_tiles_eq in Hk by done.
  destruct Hok as (Hn & Ht & Hh).
  pose proof (Z.mul_div_le (ax_n a - 1) (ax_t a) Ht). nia.
Qed.

Lemma div_in_grid a c :
  axis_ok a -> 0 <= c < ax_n a -> 0 <= c / ax_t a < num_tiles a.
Proof.
  intros Hok Hc. rewrite num_tiles_eq by done. destruct Hok as (Hn & Ht & Hh).
  pose proof (Z.div_pos c (ax_t a)).
  pose proof (Z.div_le_mono c (ax_n a - 1) (ax_t a)). lia.
Qed.

(** The core of a tile, recovered from its extent. *)
Lemma core_of_extent a k :
  axis_ok a -> 0 <= k < num_tiles a ->
  core_of (ax_t a) (ax_h a) k (tile_extent a k) = core_size a k.
Proof.
  intros Hok Hk. pose proof (tile_start_bound a k Hok Hk) as Hkt.
  destruct Hok as (Hn & Ht & Hh).
  unfold core_of, lead, tile_extent, tile_hi, tile_lo, core_size, core_hi, core_lo.
  lia.
Qed.

(** Where a source coordinate sits inside the tile that holds it. *)
Lemma local_in_tile a c :
  axis_ok a -> 0 <= c < ax_n a ->
  let k := c / ax_t a in
  let x := lead (ax_t a) (ax_h a) k + c `mod` ax_t a in
  0 <= x < tile_extent a k /\ tile_lo a k + x = c.
Proof.
  intros Hok Hc k x. pose proof (div_in_grid a c Hok Hc) as Hk.
  pose proof (tile_start_bound a k Hok Hk) as Hkt.
  destruct Hok as (Hn & Ht & Hh).
  pose proof (Z.div_mod c (ax_t a) ltac:(lia)) as Hdm.
  pose proof (Z.mod_pos_bound c (ax_t a) Ht) as Hm.
  subst x. fold k in Hdm.
  unfold lead, tile_extent, tile_hi, tile_lo, core_hi, core_lo.
  replace (ax_t a * k) with (k * ax_t a) in Hdm by lia. lia.
Qed.

Lemma sum_cores_from a (len : nat) : forall s,
  axis_ok a -> 0 <= s -> (s + Z.of_nat len) * ax_t a < ax_n a + ax_t a ->
  sum_list_Z (core_size a <$> seqZ s (Z.of_nat len)) =
  Z.min (ax_n a) ((s + Z.of_nat len) * ax_t a) - Z.min (ax_n a) (s * ax_t a).
Proof.
  induction len as [|len IH]; intros s Hok Hs Hb.
  - simpl. rewrite Z.add_0_r. lia.
  - rewrite seqZ_cons by lia. rewrite fmap_cons. simpl.
    replace (Z.pred (Z.of_nat (S len))) with (Z.of_nat len) by lia.
    rewrite IH; [|done|lia|lia].
    unfold core_size, core_hi, core_lo. destruct Hok as (Hn & Ht & Hh). nia.
Qed.

Lemma sum_cores a :
  axis_ok a -> sum_list_Z (core_size a <$> zrange (num_tiles a)) = ax_n a.
Proof.
  intros Hok. pose proof (num_tiles_pos a Hok) as Hg.
  pose proof (tile_start_bound a (num_tiles a - 1) Hok ltac:(lia)) as Hlast.
  unfold zrange. rewrite <- (Z2Nat.id (num_tiles a)) by lia.
  rewrite sum_cores_from; try done; rewrite Z2Nat.id by lia; try lia.
  destruct Hok as (Hn & Ht & Hh).
  rewrite num_tiles_eq by done.
  pose proof (Z.mul_succ_div_gt (ax_n a - 1) (ax_t a) Ht). nia.
Qed.

Lemma locate_cores_from a (len : nat) : forall s c,
  axis_ok a -> 0 <= s -> s * ax_t a <= c < ax_n a ->
  c < (s + Z.of_nat len) * ax_t a ->
  locate (core_size a <$> seqZ s (Z.of_nat len)) (c - s * ax_t a) =
  (c / ax_t a - s, c `mod` ax_t a).
Proof.
  induction len as [|len IH]; intros s c Hok Hs Hc Hb.
  - lia.
  - rewrite seqZ_cons by lia. rewrite fmap_cons. simpl.
    replace (Z.pred (Z.of_nat (S len))) with (Z.of_nat len) by lia.
    pose proof Hok as (Hn & Ht & Hh).
    unfold core_size at 1. unfold core_hi, core_lo.
    destruct (decide (c < s * ax_t a + ax_t a)) as [Hin|Hout].
    + rewrite bool_decide_eq_true_2 by lia.
      assert (c / ax_t a = s) as Hq.
      { symmetry. apply (Z.div_unique c (ax_t a) s (c - s * ax_t a)); lia. }
      assert (c `mod` ax_t a = c - s * ax_t a) as Hr.
      { symmetry. apply (Z.mod_unique c (ax_t a) s (c - s * ax_t a)); lia. }
      rewrite Hq, Hr. f_equal. lia.
    + rewrite bool_decide_eq_false_2 by lia.
      replace (c - s * ax_t a - core_size a s)
        with (c - Z.succ s * ax_t a)
        by (unfold core_size, core_hi, core_lo; lia).
      rewrite IH; [|done|lia|lia|lia]. f_equal. lia.
Qed.

Lemma locate_cores a c :
  axis_ok a -> 0 <= c < ax_n a ->
  locate (core_size a <$> zrange (num_tiles a)) c = (c / ax_t a, c `mod` ax_t a).
Proof.
  intros Hok Hc. pose proof (num_tiles_pos a Hok) as Hg.
  pose proof (div_in_grid a c Hok Hc) as Hk.
  unfold zrange. rewrite <- (Z2Nat.id (num_tiles a)) by lia.
  replace c with (c - 0 * ax_t a) at 1 by lia.
  rewrite locate_cores_from; try done; try lia.
  - f_equal. lia.
  - rewrite Z2Nat.id by lia. destruct Hok as (Hn & Ht & Hh).
    rewrite num_tiles_eq by done.
    pose proof (Z.mul_succ_div_gt (ax_n a - 1) (ax_t a) Ht). nia.
Qed.

Lemma in_rangeb_storage ds p : forall c,
  0 <= p -> in_rangeb ds c = true -> in_rangeb (storage_dims ds p) c = true.
Proof.
  induction ds as [|d ds IH]; intros [|x c] Hp Hr; simpl in *; try done.
  apply andb_true_iff in Hr as [Hx%bool_decide_eq_true Hr].
  destruct ds as [|d' ds].
  - destruct c; [|done]. simpl. rewrite bool_decide_eq_true_2 by lia. done.
  - cbn [in_rangeb]. rewrite bool_decide_eq_true_2 by lia. simpl. by apply IH.
Qed.

(** Reading a generated tile reads the source at the tile's origin plus the
    local coordinate. *)
Lemma tensor_get_make_tile src tileShape axes k x :
  0 <= List.last (padding tileShape) 0 ->
  in_rangeb (zip_with tile_extent axes k) x = true ->
  tensor_get zero (make_tile zero src tileShape axes k) x =
  tensor_get zero src (zip_with Z.add (zip_with tile_lo axes k) x).
Proof.
  intros Hp Hx. unfold tensor_get at 1. unfold make_tile. cbn [t_shape t_data dims].
  rewrite Hx. unfold storage_of. cbn [dims padding].
  erewrite nth_lookup_Some; [reflexivity|].
  rewrite list_lookup_fmap, coords_lookup by (by apply in_rangeb_storage).
  simpl. by rewrite Hx.
Qed.

Lemma grid_tile_generate src tileShape axes k :
  in_rangeb (num_tiles <$> axes) k = true ->
  grid_tile (num_tiles <$> axes)
            (make_tile zero src tileShape axes <$> coords (num_tiles <$> axes)) k
  = Some (make_tile zero src tileShape axes k).
Proof.
  intros Hk. unfold grid_tile. by rewrite list_lookup_fmap, coords_lookup.
Qed.

Lemma unit_in_range ds : forall (a : nat) k d,
  Forall (fun d => 1 <= d) ds -> ds !! a = Some d -> 0 <= k < d ->
  in_rangeb ds (unit_coord (length ds) a k) = true.
Proof.
  unfold unit_coord.
  induction ds as [|d0 ds IH]; intros a k d Hall Ha Hk; [done|].
  inversion Hall as [|? ? Hd0 Hds]; subst.
  destruct a as [|a]; simpl in *.
  - injection Ha as ->. rewrite bool_decide_eq_true_2 by lia. simpl.
    clear -Hds. induction Hds as [|d ds Hd _ IH]; [done|].
    simpl. rewrite bool_decide_eq_true_2 by lia. done.
  - rewrite bool_decide_eq_true_2 by lia. simpl. by eapply IH.
Qed.

Lemma unit_extent axes (a : nat) ax k :
  axes !! a = Some ax ->
  nth a (zip_with tile_extent axes (unit_coord (length axes) a k)) 0
  = tile_extent ax k.
Proof.
  intros Ha. apply nth_lookup_Some. unfold unit_coord.
  rewrite lookup_zip_with, Ha. simpl.
  rewrite list_lookup_insert_eq; [done|].
  rewrite length_replicate. by eapply lookup_lt_Some.
Qed.

(** The core extents read back from the generated tiles are the cores of
    the partition. *)
Lemma all_cores_generate src tileShape axes :
  0 <= List.last (padding tileShape) 0 ->
  Forall axis_ok axes ->
  forall suf pre, axes = pre ++ suf ->
  all_cores (num_tiles <$> axes)
            (make_tile zero src tileShape axes <$> coords (num_tiles <$> axes))
            (length pre) (ax_t <$> suf) (ax_h <$> suf)
  = axis_core_list <$> suf.
Proof.
  intros Hp Hok. induction suf as [|ax suf IH]; intros pre Hax; [done|].
  rewrite !fmap_cons. cbn [all_cores]. f_equal.
  - unfold axis_cores, axis_core_list.
    assert (axes !! length pre = Some ax) as Hlk.
    { rewrite Hax. by rewrite list_lookup_middle. }
    assert (nth (length pre) (num_tiles <$> axes) 0 = num_tiles ax) as ->.
    { apply nth_lookup_Some. by rewrite list_lookup_fmap, Hlk. }
    apply list_fmap_ext. intros i k Hk.
    unfold zrange in Hk. apply lookup_seqZ in Hk as [-> Hi].
    rewrite grid_tile_generate.
    2:{ apply (unit_in_range _ _ _ (num_tiles ax)).
        - apply Forall_fmap. eapply Forall_impl; [exact Hok|].
          intros a' Ha'. simpl. by apply num_tiles_pos.
        - by rewrite list_lookup_fmap, Hlk.
        - lia. }
    cbn [make_tile t_shape dims]. rewrite length_fmap.
    rewrite (unit_extent axes _ ax) by done.
    apply core_of_extent; [|lia].
    eapply Forall_lookup_1; [exact Hok|exact Hlk].
  - specialize (IH (pre ++ [ax])). rewrite length_app in IH. simpl in IH.
    replace (length pre + 1)%nat with (S (length pre)) in IH by lia.
    apply IH. by rewrite <- app_assoc.
Qed.

(** Per coordinate: the tile found by walking the cores, the local
    coordinate in it, and the source coordinate they stand for. *)
Lemma locate_tile axes c :
  Forall2 (fun a x => axis_ok a /\ 0 <= x < ax_n a) axes c ->
  let kl := zip_with locate (axis_core_list <$> axes) c in
  let k := fst <$> kl in
  let x := local_coord (ax_t <$> axes) (ax_h <$> axes) kl in
  in_rangeb (num_tiles <$> axes) k = true /\
  in_rangeb (zip_with tile_extent axes k) x = true /\
  zip_with Z.add (zip_with tile_lo axes k) x = c.
Proof.
  induction 1 as [|a x axes c [Hok Hx] _ IH]; [done|].
  destruct IH as (I1 & I2 & I3).
  rewrite !fmap_cons. cbn [zip_with].
  assert (locate (axis_core_list a) x = (x / ax_t a, x `mod` ax_t a)) as ->.
  { by apply locate_cores. }
  cbn [fmap list_fmap fst local_coord zip_with in_rangeb].
  pose proof (div_in_grid a x Hok Hx) as Hk.
  destruct (local_in_tile a x Hok Hx) as [Hl1 Hl2].
  rewrite !bool_decide_eq_true_2 by done. simpl.
  split; [exact I1|]. split; [exact I2|]. f_equal; [exact Hl2|exact I3].
Qed.

Lemma mk_axes_spec ns : forall ts hs,
  length ts = length ns -> length hs = length ns ->
  Forall (fun n => 0 < n) ns -> Forall (fun t => 0 < t) ts ->
  Forall (fun h => 0 <= h) hs ->
  ax_n <$> mk_axes ns ts hs = ns /\ ax_t <$> mk_axes ns ts hs = ts /\
  ax_h <$> mk_axes ns ts hs = hs /\ Forall axis_ok (mk_axes ns ts hs).
Proof.
  induction ns as [|n ns IH]; intros [|t ts] [|h hs] Lt Lh Hn Ht Hh;
    try (simpl in *; done).
  inversion Hn; inversion Ht; inversion Hh; subst.
  destruct (IH ts hs) as (E1 & E2 & E3 & E4); try done;
    try (simpl in *; lia).
  cbn [mk_axes]. rewrite !fmap_cons, E1, E2, E3.
  repeat split; try done. by constructor.
Qed.

Lemma coords_NoDup ds : NoDup (coords ds).
Proof.
  induction ds as [|d ds IH]; simpl.
  - apply NoDup_singleton.
  - apply NoDup_bind.
    + intros x1 x2 c _ _ (c1 & -> & _)%list_elem_of_fmap
             (c2 & [= -> _] & _)%list_elem_of_fmap. done.
    + intros x _. apply NoDup_fmap_2; [|done]. by intros c1 c2 [= ->].
    + apply NoDup_seqZ.
Qed.

(** A buffer without padding holds exactly the logical contents. *)
Lemma logical_data_unpadded (src : Tensor elem) :
  storage_of (t_shape src) = dims (t_shape src) ->
  length (t_data src) = Z.to_nat (prod_Z (dims (t_shape src))) ->
  Forall (fun n => 0 < n) (dims (t_shape src)) ->
  logical_data zero src = t_data src.
Proof.
  intros Hst Hlen Hpos. unfold logical_data.
  assert (Forall (fun d => 0 <= d) (dims (t_shape src))) as Hnn.
  { eapply Forall_impl; [exact Hpos|]. simpl. lia. }
  apply list_eq. intros i. rewrite list_lookup_fmap.
  destruct (coords (dims (t_shape src)) !! i) as [c|] eqn:Hc; simpl.
  - pose proof (coords_in_range _ _ (list_elem_of_lookup_2 _ _ _ Hc)) as Hr.
    pose proof (coords_lookup _ _ Hr) as Hc'.
    pose proof (NoDup_lookup _ _ _ _ (coords_NoDup _) Hc Hc') as Hi.
    unfold tensor_get. rewrite Hr, Hst, <- Hi.
    apply lookup_lt_Some in Hc. rewrite coords_length in Hc by done.
    destruct (lookup_lt_is_Some_2 (t_data src) i) as [y Hy]; [lia|].
    rewrite Hy. f_equal. by apply nth_lookup_Some.
  - apply lookup_ge_None in Hc. rewrite coords_length in Hc by done.
    symmetry. apply lookup_ge_None. lia.
Qed.

Lemma in_range_axes axes c :
  Forall axis_ok axes -> in_rangeb (ax_n <$> axes) c = true ->
  Forall2 (fun a x => axis_ok a /\ 0 <= x < ax_n a) axes c.
Proof.
  intros Hok Hr. apply in_rangeb_Forall2 in Hr. apply Forall2_fmap_l in Hr.
  revert Hok. induction Hr; intros Hok; [constructor|].
  inversion Hok; subst. constructor; [done|]. by apply IHHr.
Qed.

(** The tiles made by [generate_tiles], concatenated along every axis with
    the halo overlap removed, give back the source. *)
Lemma generate_tiles_stitch (src : Tensor elem) (tileShape : TensorShape)
    (halos : list Z) :
  let ns := dims (t_shape src) in
  let ts := dims tileShape in
  length ts = length ns -> length halos = length ns ->
  Forall (fun n => 0 < n) ns -> Forall (fun t => 0 < t) ts ->
  Forall (fun h => 0 <= h) halos ->
  0 <= List.last (padding tileShape) 0 ->
  let gt := generate_tiles zero src tileShape halos in
  stitch zero ts halos gt.1 gt.2 = (ns, logical_data zero src) /\
  (storage_of (t_shape src) = ns ->
   length (t_data src) = Z.to_nat (prod_Z ns) ->
   (stitch zero ts halos gt.1 gt.2).2 = t_data src).
Proof.
  intros ns ts Lt Lh Hn Ht Hh Hp gt.
  destruct (mk_axes_spec ns ts halos Lt Lh Hn Ht Hh) as (En & Et & Eh & Hok).
  assert (stitch zero ts halos gt.1 gt.2 = (ns, logical_data zero src)) as Hst.
  { subst gt. unfold generate_tiles. fold ns ts. cbn [fst snd].
    set (axes := mk_axes ns ts halos) in *.
    unfold stitch.
    pose proof (all_cores_generate src tileShape axes Hp Hok axes [] eq_refl)
      as Hcores. simpl in Hcores. rewrite Et, Eh in Hcores. rewrite Hcores.
    assert (sum_list_Z <$> (axis_core_list <$> axes) = ns) as Hdims.
    { rewrite <- En, <- list_fmap_compose. apply list_fmap_ext.
      intros i a Ha. simpl. apply sum_cores. by eapply Forall_lookup_1. }
    rewrite Hdims. f_equal. unfold logical_data. fold ns.
    apply list_fmap_ext. intros i c Hc.
    pose proof (coords_in_range _ _ (list_elem_of_lookup_2 _ _ _ Hc)) as Hr.
    rewrite <- En in Hr.
    destruct (locate_tile axes c (in_range_axes axes c Hok Hr)) as (L1 & L2 & L3).
    rewrite grid_tile_generate by done.
    rewrite <- Et, <- Eh. rewrite tensor_get_make_tile by done.
    by rewrite L3. }
  split; [done|]. intros Hsto Hlen. rewrite Hst. simpl.
  by apply logical_data_unpadded.
Qed.


(** [alloc_all] stores the tensors, in order, at pairwise distinct addresses
    that were free, and leaves the rest of the heap alone. *)
Lemma alloc_all_fresh (ts : list (Tensor elem)) :
  forall w, exists l w',
    alloc_all ts w = Ok l w' /\ trace w' = trace w /\
    (forall a t, heap w !! a = Some t -> heap w' !! a = Some t) /\
    Forall (fun a => heap w !! a = None) l /\ NoDup l /\
    Forall2 (fun a t => heap w' !! a = Some t) l ts.
Proof.
  induction ts as [|t ts IH]; intros w; simpl.
  - exists [], w. repeat split; try done; constructor.
  - unfold bind, alloc at 1.
    set (a := fresh (dom (heap w))).
    assert (heap w !! a = None) as Ha.
    { apply not_elem_of_dom. apply is_fresh. }
    destruct (IH (mkWorld (<[a := t]> (heap w)) (trace w)))
      as (l & w' & -> & Htr & Hh & Hfr & Hnd & Hall).
    exists (a :: l), w'. simpl in *.
    assert (a ∉ l) as Hal.
    { intros Hin. rewrite Forall_forall in Hfr. specialize (Hfr a Hin).
      by rewrite lookup_insert_eq in Hfr. }
    split; [done|]. split; [done|]. split; [|split; [|split]].
    + intros b tb Hb. apply Hh. rewrite lookup_insert_ne; [done|].
      intros <-. congruence.
    + constructor; [done|]. eapply Forall_impl; [exact Hfr|].
      intros b Hb. simpl in Hb.
      destruct (decide (a = b)) as [<-|Hne]; [done|].
      by rewrite lookup_insert_ne in Hb.
    + by constructor.
    + constructor; [|done]. apply Hh. by rewrite lookup_insert_eq.
Qed.

Lemma num_tiles_along ns : forall ts hs,
  length ts = length ns -> length hs = length ns ->
  num_tiles <$> mk_axes ns ts hs = zip_with tiles_along ns ts.
Proof.
  induction ns as [|n ns IH]; intros [|t ts] [|h hs] Lt Lh;
    try (simpl in *; done).
  simpl. f_equal. apply IH; simpl in *; lia.
Qed.

(** C8: for a live source tensor with positive extents, a tile shape with
    positive extents and a non-negative halo on every axis,
    [generateTiledTensor] returns a tiled tensor whose grid has
    ceil(extent / tile extent) slots along every axis, every slot with a
    tile of its own in the heap, the source left in place; and these tiles,
    read back from the heap and concatenated along every axis with the halo
    overlap removed, give back the source: the same extents (no gap, no
    truncation, also when an extent is not a multiple of the tile size) and
    the same elements.  For an unpadded source that is its whole buffer. *)
Theorem tiles_reconstruct_source (src : addr) (t : Tensor elem)
    (tileShape : TensorShape) (halos : list Z) (w : world elem) :
  let ns := dims (t_shape t) in
  let ts := dims tileShape in
  heap w !! src = Some t ->
  length ts = length ns -> length halos = length ns ->
  Forall (fun n => 0 < n) ns -> Forall (fun t => 0 < t) ts ->
  Forall (fun h => 0 <= h) halos ->
  0 <= List.last (padding tileShape) 0 ->
  exists tiled w' tiles,
    generateTiledTensor zero src tileShape halos w = Ok tiled w' /\
    heap w' !! src = Some t /\
    dims (tt_shape tiled) = zip_with tiles_along ns ts /\
    Z.of_nat (length (tt_tiles tiled)) = prod_Z (dims (tt_shape tiled)) /\
    NoDup (tt_tiles tiled) /\
    Forall (fun a => heap w !! a = None) (tt_tiles tiled) /\
    tiles_of (heap w') tiled = Some tiles /\
    stitch zero ts halos (dims (tt_shape tiled)) tiles
    = (ns, logical_data zero t) /\
    (storage_of (t_shape t) = ns ->
     length (t_data t) = Z.to_nat (prod_Z ns) ->
     (stitch zero ts halos (dims (tt_shape tiled)) tiles).2 = t_data t).
Proof.
  intros ns ts Hsrc Lt Lh Hn Ht Hh Hp.
  destruct (generate_tiles_stitch t tileShape halos Lt Lh Hn Ht Hh Hp)
    as [Hst Hdata].
  destruct (mk_axes_spec ns ts halos Lt Lh Hn Ht Hh) as (_ & _ & _ & Hok).
  unfold generateTiledTensor, bind, deref, emit. rewrite Hsrc.
  unfold generate_tiles in *. fold ns ts in Hst, Hdata |- *.
  cbn [fst snd] in Hst, Hdata.
  set (grid := num_tiles <$> mk_axes ns ts halos) in *.
  set (tiles := make_tile zero t tileShape (mk_axes ns ts halos) <$> coords grid)
    in *.
  destruct (alloc_all_fresh tiles
              (mkWorld (heap w) (trace w ++ [EvGenerateTiled src tileShape halos])))
    as (l & w' & -> & Htr & Hheap & Hfr & Hnd & Hall).
  exists (mkTiled (mkShape grid (replicate (length grid) 0) (layout tileShape)) l),
         w', tiles.
  cbn [ret tt_shape tt_tiles dims heap] in *.
  split; [done|]. split; [by apply Hheap|].
  split; [by apply num_tiles_along|].
  split.
  { rewrite (Forall2_length _ _ _ Hall). unfold tiles.
    rewrite length_fmap, coords_length.
    - rewrite Z2Nat.id; [done|]. apply prod_Z_nonneg.
      unfold grid. apply Forall_fmap. eapply Forall_impl; [exact Hok|].
      intros a Ha. simpl. pose proof (num_tiles_pos a Ha). lia.
    - unfold grid. apply Forall_fmap. eapply Forall_impl; [exact Hok|].
      intros a Ha. simpl. pose proof (num_tiles_pos a Ha). lia. }
  split; [done|]. split; [done|].
  split; [by apply mapM_Some|].
  split; [done|]. exact Hdata.
Qed.

End TilingFacts.

(** * The tile loops and the operator: further properties *)

Section DriverMore.

Context {elem : Type}.
Variable kernel :
  list elem -> list elem -> list elem ->
  list Z -> list Z -> list Z -> Z -> Z -> Z -> Z -> Z -> Z -> Z -> bool ->
  list elem.
Variable computeBasicTileShapes :
  Z -> Z -> ConvOp -> TensorShape -> TensorShape -> TensorShape -> TilingConfig.
Variable zero : elem.

Implicit Types (w : world elem) (op : ConvOp) (inputs weights outputs : TiledTensor).

Local Abbreviation conv_tile_inv := (conv_tile_inv kernel).
Local Abbreviation chan_loop_unfold := (chan_loop_unfold kernel).
Local Abbreviation chan_loop_evolves := (chan_loop_evolves kernel).
Local Abbreviation runNHWC_evolves := (runNHWC_evolves kernel).
Local Abbreviation chan_loop_ok := (chan_loop_ok kernel).
Local Abbreviation run_reaches_loop :=
  (run_reaches_loop kernel computeBasicTileShapes zero).

Lemma schedule_closed I Wt fuel :
  (chan_measure I Wt 0 0 <= fuel)%nat -> schedule fuel I Wt 0 0 = chan_pairs I Wt.
Proof.
  intros Hf. unfold chan_measure in Hf. unfold chan_pairs.
  case_bool_decide as Hpos.
  2:{ apply schedule_nil. lia. }
  destruct Hpos as [HI HW].
  case_bool_decide as He.
  { rewrite schedule_both by (done || lia). by rewrite Z.sub_0_r. }
  case_bool_decide as H1.
  { rewrite schedule_weights by (done || lia). by rewrite Z.sub_0_r. }
  rewrite schedule_inputs by (done || lia). by rewrite Z.sub_0_r.
Qed.

Lemma for_each_calls {K} (Inv : world elem -> Prop) (proj : KernelCall -> K)
    (body : Z -> M unit) (key : Z -> list K) (l : list Z) :
  (forall x w, x ∈ l -> Inv w ->
     exists w', body x w = Ok tt w' /\ Inv w' /\
       proj <$> kernel_calls (trace w')
       = (proj <$> kernel_calls (trace w)) ++ key x) ->
  forall w, Inv w ->
    exists w', for_each l body w = Ok tt w' /\ Inv w' /\
      proj <$> kernel_calls (trace w')
      = (proj <$> kernel_calls (trace w)) ++ (l ≫= key).
Proof.
  induction l as [|x l IH]; intros Hbody w Hw.
  - exists w. simpl. by rewrite app_nil_r.
  - destruct (Hbody x w) as (w1 & E1 & I1 & K1); [left|done|].
    destruct IH with (w := w1) as (w2 & E2 & I2 & K2); [|done|].
    { intros y w' Hy. apply Hbody. by right. }
    exists w2. split.
    { simpl. unfold bind. by rewrite E1. }
    split; [done|].
    rewrite K2, K1, bind_cons. by rewrite <- app_assoc.
Qed.

(** X13: on well-formed tilings [runNHWC] runs to completion and calls the
    kernel for the output tiles (N,H,W) in lexicographic order, N over the
    input batch tiles, H over the input row tiles, W over the filter tiles;
    within each it goes through the cursor pairs of the channel loop. *)
Theorem runNHWC_iteration_order fuel op inputs weights outputs w :
  let I := shape_at (tt_shape inputs) 3 in
  let Wt := shape_at (tt_shape weights) 3 in
  tiling_ok (shapes (heap w)) inputs weights outputs ->
  (chan_measure I Wt 0 0 <= fuel)%nat ->
  exists w',
    runNHWC kernel fuel op inputs weights outputs w = Ok tt w' /\
    loop_vars <$> kernel_calls (trace w')
    = (loop_vars <$> kernel_calls (trace w)) ++
      (N ← zrange (shape_at (tt_shape inputs) 0);
       H ← zrange (shape_at (tt_shape inputs) 1);
       W ← zrange (shape_at (tt_shape weights) 0);
       (fun p => (N, H, W, p.1, p.2)) <$> chan_pairs I Wt).
Proof.
  intros I Wt Hok Hfuel.
  set (Inv := fun w1 : world elem => shapes (heap w1) = shapes (heap w)).
  unfold runNHWC.
  destruct (for_each_calls Inv loop_vars
    (fun N => for_each (zrange (shape_at (tt_shape inputs) 1)) (fun H =>
       for_each (zrange (shape_at (tt_shape weights) 0)) (fun W =>
         chan_loop kernel fuel op inputs weights outputs N H W I Wt 0 0)))
    (fun N => H ← zrange (shape_at (tt_shape inputs) 1);
              W ← zrange (shape_at (tt_shape weights) 0);
              (fun p => (N, H, W, p.1, p.2)) <$> chan_pairs I Wt)
    (zrange (shape_at (tt_shape inputs) 0))) with (w := w)
    as (w' & E & _ & K); [|done|by exists w'].
  intros N w1 HN%elem_of_seqZ Hw1.
  apply (for_each_calls Inv loop_vars); [|done].
  intros H w2 HH%elem_of_seqZ Hw2.
  apply (for_each_calls Inv loop_vars); [|done].
  intros W w3 HW%elem_of_seqZ Hw3.
  destruct (chan_loop_ok op inputs weights outputs N H W fuel w3)
    as (w4 & calls & Hrun & Hk & Hf); try done; try lia.
  { by rewrite Hw3. }
  exists w4. split; [done|]. split.
  { unfold Inv.
    destruct (chan_loop_evolves op inputs weights outputs N H W I Wt fuel 0 0 w3)
      as (Hs & _). unfold I, Wt in Hs. rewrite Hrun in Hs. simpl in Hs.
    by rewrite Hs. }
  rewrite Hk, fmap_app. f_equal.
  fold I Wt in Hf. rewrite schedule_closed in Hf by done.
  clear -Hf. induction Hf as [|p c sch calls Hc _ IH]; [done|].
  rewrite !fmap_cons, IH. f_equal.
  destruct Hc as (E1 & E2 & E3 & E4 & E5 & _). unfold loop_vars.
  by rewrite E1, E2, E3, E4, E5.
Qed.

Lemma for_each_skip (body : Z -> M unit) (l : list Z) w :
  (forall x w1, x ∈ l -> body x w1 = Ok tt w1) -> for_each l body w = Ok tt w.
Proof.
  induction l as [|x l IH]; intros Hbody; [done|].
  simpl. unfold bind. rewrite Hbody by left. apply IH.
  intros y w1 Hy. apply Hbody. by right.
Qed.

(** X14: when a loop extent or a channel-tile count is zero or negative,
    [runNHWC] does nothing: no kernel call, no print, no fault, whatever the
    fuel and the state of the tiles. *)
Theorem runNHWC_empty fuel op inputs weights outputs w :
  shape_at (tt_shape inputs) 0 <= 0 \/ shape_at (tt_shape inputs) 1 <= 0 \/
  shape_at (tt_shape weights) 0 <= 0 \/
  shape_at (tt_shape inputs) 3 <= 0 \/ shape_at (tt_shape weights) 3 <= 0 ->
  runNHWC kernel fuel op inputs weights outputs w = Ok tt w.
Proof.
  intros Hz. unfold runNHWC.
  apply for_each_skip. intros N w1 HN%elem_of_seqZ.
  apply for_each_skip. intros H w2 HH%elem_of_seqZ.
  apply for_each_skip. intros W w3 HW%elem_of_seqZ.
  destruct fuel; simpl; rewrite guard_false; try done; lia.
Qed.


Lemma startIndex_inj t n h x c n' h' x' c' i :
  startIndex t n h x c = Some i -> startIndex t n' h' x' c' = Some i ->
  n = n' /\ h = h' /\ x = x' /\ c = c'.
Proof.
  unfold startIndex. intros E1 E2.
  case_match eqn:G1; [|done]. case_match eqn:G2; [|done].
  repeat (apply andb_true_iff in G1 as [G1 ?%bool_decide_eq_true]).
  apply bool_decide_eq_true in G1.
  repeat (apply andb_true_iff in G2 as [G2 ?%bool_decide_eq_true]).
  apply bool_decide_eq_true in G2.
  injection E1 as E1. injection E2 as E2.
  set (d1 := shape_at (tt_shape t) 1) in *. set (d2 := shape_at (tt_shape t) 2) in *.
  set (d3 := shape_at (tt_shape t) 3) in *.
  assert (c = c' /\ (n * d1 + h) * d2 + x = (n' * d1 + h') * d2 + x') as [-> E].
  { assert ((n * d1 + h) * d2 + x = (n' * d1 + h') * d2 + x') by nia. lia. }
  assert (x = x' /\ n * d1 + h = n' * d1 + h') as [-> E'].
  { assert (n * d1 + h = n' * d1 + h') by nia. lia. }
  assert (n = n') by nia. subst. repeat split; lia.
Qed.

(** With one pointer per grid slot, a tile pointer determines its grid
    coordinate. *)
Lemma tile_ptr_inj t n h x c n' h' x' c' a :
  NoDup (tt_tiles t) ->
  tile_ptr t n h x c = Some a -> tile_ptr t n' h' x' c' = Some a ->
  n = n' /\ h = h' /\ x = x' /\ c = c'.
Proof.
  intros Hnd. unfold tile_ptr, tile_at.
  destruct (startIndex t n h x c) as [i|] eqn:Ei; simpl; [|done].
  destruct (startIndex t n' h' x' c') as [i'|] eqn:Ei'; simpl; [|done].
  case_bool_decide; [|done]. case_bool_decide; [|done].
  intros H1 H2. pose proof (NoDup_lookup _ _ _ _ Hnd H1 H2) as Hi.
  assert (i = i') as -> by lia. by eapply startIndex_inj.
Qed.

(** X15: [runNHWC] does not tile the width axis, nor the weights' spatial
    axes.  When every grid slot has its own tile, the tiles it hands to the
    kernel all sit at width coordinate 0 (and kernel-row coordinate 0 for
    the weights): an input, weight or output tile at another coordinate is
    never used, whatever the outcome of the run. *)
Theorem runNHWC_spatial_tiles_unused fuel op inputs weights outputs w :
  NoDup (tt_tiles inputs) -> NoDup (tt_tiles weights) ->
  NoDup (tt_tiles outputs) ->
  exists calls,
    kernel_calls (trace (final_world
      (runNHWC kernel fuel op inputs weights outputs w)))
    = kernel_calls (trace w) ++ calls /\
    Forall (fun c =>
      (forall n h x ch,
         tile_ptr inputs n h x ch = Some (kc_inputs c) -> x = 0) /\
      (forall f y x ch,
         tile_ptr weights f y x ch = Some (kc_weights c) -> y = 0 /\ x = 0) /\
      (forall n h x ch,
         tile_ptr outputs n h x ch = Some (kc_results c) -> x = 0)) calls.
Proof.
  intros Hni Hnw Hno.
  destruct (runNHWC_evolves fuel op inputs weights outputs w)
    as (_ & _ & calls & Hk & Hall).
  exists calls. split; [done|].
  eapply Forall_impl; [exact Hall|]. intros c Hc.
  destruct Hc as (_ & _ & _ & _ & _ & _ & E7 & E8 & E9 & _).
  split; [|split].
  - intros n h x ch Hp.
    by destruct (tile_ptr_inj _ _ _ _ _ _ _ _ _ _ Hni Hp E7) as (_ & _ & -> & _).
  - intros f y x ch Hp.
    by destruct (tile_ptr_inj _ _ _ _ _ _ _ _ _ _ Hnw Hp E8) as (_ & -> & -> & _).
  - intros n h x ch Hp.
    by destruct (tile_ptr_inj _ _ _ _ _ _ _ _ _ _ Hno Hp E9) as (_ & _ & -> & _).
Qed.

(** X17: each output tile belongs to one (N,H,W) iteration.  When every
    output grid slot has its own tile, two kernel calls of a run write the
    same output tile exactly when they are made in the same (N,H,W)
    iteration. *)
Theorem runNHWC_output_tile_owner fuel op inputs weights outputs w :
  NoDup (tt_tiles outputs) ->
  exists calls,
    kernel_calls (trace (final_world
      (runNHWC kernel fuel op inputs weights outputs w)))
    = kernel_calls (trace w) ++ calls /\
    forall c1 c2, c1 ∈ calls -> c2 ∈ calls ->
      (kc_results c1 = kc_results c2 <->
       (kc_N c1, kc_H c1, kc_W c1) = (kc_N c2, kc_H c2, kc_W c2)).
Proof.
  intros Hno.
  destruct (runNHWC_evolves fuel op inputs weights outputs w)
    as (_ & _ & calls & Hk & Hall).
  exists calls. split; [done|]. intros c1 c2 H1 H2.
  rewrite Forall_forall in Hall.
  destruct (Hall c1 H1) as (_ & _ & _ & _ & _ & _ & _ & _ & E1 & _).
  destruct (Hall c2 H2) as (_ & _ & _ & _ & _ & _ & _ & _ & E2 & _).
  split.
  - intros He. rewrite He in E1.
    destruct (tile_ptr_inj _ _ _ _ _ _ _ _ _ _ Hno E1 E2) as (-> & -> & _ & ->).
    done.
  - intros [= EN EH EW]. rewrite EN, EH, EW in E1. congruence.
Qed.

Lemma conv_tile_fault op inputs weights outputs N H W iC wC w f w' :
  conv_tile kernel op inputs weights outputs N H W iC wC w = Fault f w' ->
  loop_fault f.
Proof.
  unfold conv_tile, bind, lift_option, ret, raise, emit, deref, write_data,
    loop_fault.
  destruct (startIndex inputs N H 0 iC) as [ii|]; simpl; [|by intros [= <- _]].
  destruct (startIndex weights W 0 0 wC) as [wi|]; simpl; [|by intros [= <- _]].
  destruct (startIndex outputs N H 0 W) as [oi|]; simpl; [|by intros [= <- _]].
  destruct (tile_at inputs ii) as [ai|]; simpl; [|by intros [= <- _]].
  destruct (tile_at weights wi) as [aw|]; simpl; [|by intros [= <- _]].
  destruct (tile_at outputs oi) as [ao|]; simpl; [|by intros [= <- _]].
  destruct (heap w !! ai) as [ti|]; simpl; [|by intros [= <- _]].
  destruct (heap w !! aw) as [tw|]; simpl; [|by intros [= <- _]].
  destruct (heap w !! ao) as [to|] eqn:Eto; simpl; [|by intros [= <- _]].
  by rewrite Eto.
Qed.

Lemma chan_loop_fault op inputs weights outputs N H W I Wt fuel :
  forall iC wC w f w',
  chan_loop kernel fuel op inputs weights outputs N H W I Wt iC wC w = Fault f w' ->
  loop_fault f.
Proof.
  induction fuel as [|fuel IH]; intros iC wC w f w'.
  - simpl. case_match; [|done]. by intros [= <- _].
  - rewrite chan_loop_unfold. case_match; [|done].
    destruct (conv_tile kernel op inputs weights outputs N H W iC wC w)
      as [[] w1|f1 w1] eqn:Ec.
    + apply IH.
    + intros [= <- _]. by eapply conv_tile_fault.
Qed.

Lemma for_each_fault (body : Z -> M unit) (l : list Z) :
  (forall x w f w', body x w = Fault f w' -> loop_fault f) ->
  forall w f w', for_each l body w = Fault f w' -> loop_fault f.
Proof.
  intros Hbody. induction l as [|x l IH]; intros w f w'; [done|].
  simpl. unfold bind. destruct (body x w) as [[] w1|f1 w1] eqn:Eb.
  - apply IH.
  - intros [= <- _]. by eapply Hbody.
Qed.

Lemma runNHWC_fault fuel op inputs weights outputs w f w' :
  runNHWC kernel fuel op inputs weights outputs w = Fault f w' -> loop_fault f.
Proof.
  unfold runNHWC. apply for_each_fault. intros N w1 f1 w1'.
  apply for_each_fault. intros H w2 f2 w2'.
  apply for_each_fault. intros W w3 f3 w3'.
  apply chan_loop_fault.
Qed.

Lemma run_assert_fails fuel op w ti tk to :
  heap w !! op_input op = Some ti ->
  heap w !! op_kernels op = Some tk ->
  heap w !! op_output op = Some to ->
  ~ (getLayout (t_shape ti) = NHWC /\ getLayout (t_shape tk) = NHWC /\
     getLayout (t_shape to) = NHWC) ->
  run kernel computeBasicTileShapes zero fuel op w = Fault AssertionFailed w.
Proof.
  intros Hi Hk Ho Hl.
  unfold run, bind at 1 2 3, deref. rewrite Hi, Hk, Ho.
  unfold bind at 1, assert.
  destruct (decide (getLayout (t_shape ti) = NHWC)) as [Li|Li].
  2:{ by rewrite bool_decide_eq_false_2. }
  rewrite bool_decide_eq_true_2 by done. unfold ret at 1. unfold bind at 1.
  destruct (decide (getLayout (t_shape tk) = NHWC)) as [Lk|Lk].
  2:{ by rewrite bool_decide_eq_false_2. }
  rewrite bool_decide_eq_true_2 by done. unfold ret at 1. unfold bind at 1.
  destruct (decide (getLayout (t_shape to) = NHWC)) as [Lo|Lo].
  2:{ by rewrite bool_decide_eq_false_2. }
  destruct Hl. done.
Qed.

(** X16: the layouts the operator declares are the ones [run] insists on.
    With its three tensors live, [run] fails an assertion exactly when the
    input or the weights have a layout outside [getInputDataLayouts] or the
    output has one outside [getOutputDataLayouts]; nothing after the
    assertions can fail one. *)
Theorem run_assertion_iff_layout fuel op w ti tk to :
  heap w !! op_input op = Some ti ->
  heap w !! op_kernels op = Some tk ->
  heap w !! op_output op = Some to ->
  (exists w', run kernel computeBasicTileShapes zero fuel op w
              = Fault AssertionFailed w') <->
  ~ (getLayout (t_shape ti) ∈ getInputDataLayouts /\
     getLayout (t_shape tk) ∈ getInputDataLayouts /\
     getLayout (t_shape to) ∈ getOutputDataLayouts).
Proof.
  intros Hi Hk Ho.
  unfold getInputDataLayouts, getOutputDataLayouts.
  rewrite !list_elem_of_singleton.
  split.
  - intros [w' Hrun] (Li & Lk & Lo).
    destruct (run_reaches_loop fuel op w ti tk to Hi Hk Ho Li Lk Lo)
      as (t1 & t2 & t3 & w1 & E & _).
    rewrite E in Hrun. by apply runNHWC_fault in Hrun.
  - intros Hl. exists w. by eapply run_assert_fails.
Qed.

End DriverMore.

(** * The core header and the MKL forward pass: properties *)

Module NnetFacts.
Import Nnet.

(** X1: whatever the comparison answers (also on NaN), [max9] returns one
    of its nine arguments. *)
Theorem max9_is_argument {T} (gt : T -> T -> bool)
    (e0 e1 e2 e3 e4 e5 e6 e7 e8 : T) :
  max9 gt e0 e1 e2 e3 e4 e5 e6 e7 e8 ∈ [e0; e1; e2; e3; e4; e5; e6; e7; e8].
Proof.
  unfold max9, max8, max4, max2.
  repeat case_match; set_solver.
Qed.

Lemma max2_Zmax a b : max2 Z.gtb a b = Z.max a b.
Proof. unfold max2. destruct (Z.gtb_spec a b); lia. Qed.

(** X2: on integers each of [max4], [max8], [max9] is at least every one
    of its arguments. *)
Theorem max_macros_greatest (e0 e1 e2 e3 e4 e5 e6 e7 e8 : Z) :
  Forall (fun e => e <= max4 Z.gtb e0 e1 e2 e3) [e0; e1; e2; e3] /\
  Forall (fun e => e <= max8 Z.gtb e0 e1 e2 e3 e4 e5 e6 e7)
         [e0; e1; e2; e3; e4; e5; e6; e7] /\
  Forall (fun e => e <= max9 Z.gtb e0 e1 e2 e3 e4 e5 e6 e7 e8)
         [e0; e1; e2; e3; e4; e5; e6; e7; e8].
Proof.
  unfold max9, max8, max4. rewrite !max2_Zmax.
  repeat split; repeat constructor; lia.
Qed.

(** X3: for [A >= 0] and [B > 0], [FRAC_CEIL(A, B)] is the ceiling of
    [A / B]: the least multiple count that covers [A]. *)
Theorem FRAC_CEIL_ceiling A B :
  0 <= A -> 0 < B -> A <= FRAC_CEIL A B * B < A + B.
Proof.
  intros HA HB. unfold FRAC_CEIL.
  pose proof (Z.quot_rem' A B) as Hqr.
  pose proof (Z.rem_bound_pos A B HA HB) as Hr.
  case_bool_decide; nia.
Qed.

(** X4: for a negative [A] that is not a multiple of [B > 0], truncating
    division makes [FRAC_CEIL(A, B)] one more than the ceiling. *)
Theorem FRAC_CEIL_negative A B :
  A < 0 -> 0 < B -> A `rem` B <> 0 ->
  A <= (FRAC_CEIL A B - 1) * B < A + B.
Proof.
  intros HA HB Hrem. unfold FRAC_CEIL.
  pose proof (Z.quot_rem' A B) as Hqr.
  pose proof (Z.rem_bound_pos_neg A B HB ltac:(lia)) as Hr.
  rewrite bool_decide_eq_true_2 by done. nia.
Qed.

Lemma wrap_int_small x : INT_MIN <= x <= INT_MAX -> wrap_int x = x.
Proof.
  unfold wrap_int, INT_MIN, INT_MAX. intros Hx.
  rewrite Z.mod_small; lia.
Qed.

(** Without overflow the macros compute the row-major index. *)
Lemma sub4ind_exact d h r c n_dep n_hgt n_rows n_cols :
  0 <= d < n_dep -> 0 <= h < n_hgt -> 0 <= r < n_rows -> 0 <= c < n_cols ->
  n_dep * (n_rows * n_cols * n_hgt) <= INT_MAX ->
  sub2ind r c n_cols = r * n_cols + c /\
  sub3ind h r c n_rows n_cols = r * n_cols + c + h * (n_rows * n_cols) /\
  sub4ind d h r c n_hgt n_rows n_cols
  = r * n_cols + c + h * (n_rows * n_cols) + d * (n_rows * n_cols * n_hgt).
Proof.
  intros Hd Hh Hr Hc Hmax. unfold INT_MAX in Hmax.
  assert (0 < n_rows * n_cols) as Hrc by nia.
  assert (0 < n_rows * n_cols * n_hgt) as Hrch by nia.
  assert (n_rows * n_cols * n_hgt <= n_dep * (n_rows * n_cols * n_hgt)) as Hle3
    by nia.
  assert (n_rows * n_cols <= n_rows * n_cols * n_hgt) as Hle2 by nia.
  assert (0 <= r * n_cols /\ r * n_cols + c < n_rows * n_cols) as [Hr0 Hr1]
    by nia.
  assert (0 <= h * (n_rows * n_cols) /\
          r * n_cols + c + h * (n_rows * n_cols) < n_rows * n_cols * n_hgt)
    as [Hh0 Hh1] by nia.
  assert (0 <= d * (n_rows * n_cols * n_hgt) /\
          r * n_cols + c + h * (n_rows * n_cols)
          + d * (n_rows * n_cols * n_hgt)
          < n_dep * (n_rows * n_cols * n_hgt)) as [Hd0 Hd1] by nia.
  assert (sub2ind r c n_cols = r * n_cols + c) as E2.
  { unfold sub2ind, int_add, int_mul.
    rewrite (wrap_int_small (r * n_cols)) by (unfold INT_MIN, INT_MAX; lia).
    apply wrap_int_small. unfold INT_MIN, INT_MAX. lia. }
  assert (sub3ind h r c n_rows n_cols
          = r * n_cols + c + h * (n_rows * n_cols)) as E3.
  { unfold sub3ind, int_add, int_mul. rewrite E2.
    rewrite (wrap_int_small (n_rows * n_cols))
      by (unfold INT_MIN, INT_MAX; lia).
    rewrite (wrap_int_small (h * (n_rows * n_cols)))
      by (unfold INT_MIN, INT_MAX; lia).
    apply wrap_int_small. unfold INT_MIN, INT_MAX. lia. }
  split; [done|]. split; [done|].
  unfold sub4ind, int_add, int_mul. rewrite E3.
  rewrite (wrap_int_small (n_rows * n_cols))
    by (unfold INT_MIN, INT_MAX; lia).
  rewrite (wrap_int_small (n_rows * n_cols * n_hgt))
    by (unfold INT_MIN, INT_MAX; lia).
  rewrite (wrap_int_small (d * (n_rows * n_cols * n_hgt)))
    by (unfold INT_MIN, INT_MAX; lia).
  apply wrap_int_small. unfold INT_MIN, INT_MAX. lia.
Qed.

(** X5: for in-range coordinates of an array whose element count fits in
    an [int], [sub4ind] stays inside the flattened array, and so do
    [sub2ind] and [sub3ind] on the trailing coordinates: no operation of
    the macros wraps around. *)
Theorem sub4ind_bounds d h r c n_dep n_hgt n_rows n_cols :
  0 <= d < n_dep -> 0 <= h < n_hgt -> 0 <= r < n_rows -> 0 <= c < n_cols ->
  n_dep * (n_rows * n_cols * n_hgt) <= INT_MAX ->
  0 <= sub2ind r c n_cols < n_rows * n_cols /\
  0 <= sub3ind h r c n_rows n_cols < n_hgt * (n_rows * n_cols) /\
  0 <= sub4ind d h r c n_hgt n_rows n_cols
     < n_dep * (n_rows * n_cols * n_hgt).
Proof.
  intros Hd Hh Hr Hc Hmax.
  destruct (sub4ind_exact d h r c n_dep n_hgt n_rows n_cols)
    as (-> & -> & ->); [done..|].
  assert (0 <= r * n_cols + c < n_rows * n_cols) by nia.
  assert (0 <= r * n_cols + c + h * (n_rows * n_cols) < n_hgt * (n_rows * n_cols))
    by nia.
  repeat split; try lia; nia.
Qed.

Lemma digit_unique n a a' x x' :
  0 <= a < n -> 0 <= a' < n -> a + x * n = a' + x' * n -> a = a' /\ x = x'.
Proof. intros Ha Ha' He. assert (x = x') by nia. subst. lia. Qed.

(** X6: in an array whose element count fits in an [int], two different
    in-range coordinates never share a flattened index. *)
Theorem sub4ind_injective d h r c d' h' r' c' n_dep n_hgt n_rows n_cols :
  0 <= d < n_dep -> 0 <= h < n_hgt -> 0 <= r < n_rows -> 0 <= c < n_cols ->
  0 <= d' < n_dep -> 0 <= h' < n_hgt -> 0 <= r' < n_rows -> 0 <= c' < n_cols ->
  n_dep * (n_rows * n_cols * n_hgt) <= INT_MAX ->
  (d, h, r, c) <> (d', h', r', c') ->
  sub4ind d h r c n_hgt n_rows n_cols <> sub4ind d' h' r' c' n_hgt n_rows n_cols.
Proof.
  intros Hd Hh Hr Hc Hd' Hh' Hr' Hc' Hmax Hne.
  destruct (sub4ind_exact d h r c n_dep n_hgt n_rows n_cols)
    as (_ & _ & ->); [done..|].
  destruct (sub4ind_exact d' h' r' c' n_dep n_hgt n_rows n_cols)
    as (_ & _ & ->); [done..|].
  intros He. apply Hne.
  destruct (digit_unique n_cols c c' (r + (h + d * n_hgt) * n_rows)
              (r' + (h' + d' * n_hgt) * n_rows)) as [-> E1]; [done|done|lia|].
  destruct (digit_unique n_rows r r' (h + d * n_hgt) (h' + d' * n_hgt))
    as [-> E2]; [done|done|lia|].
  destruct (digit_unique n_hgt h h' d d') as [-> E3]; [done|done|lia|].
  congruence.
Qed.

(** X7: [LAYER_TYPE_STR] names five layer types; for [BATCH_NORM] and
    [END], and for them only, it answers "UNKNOWN". *)
Theorem LAYER_TYPE_STR_unknown (a : layer_type) :
  (LAYER_TYPE_STR a = "UNKNOWN"%string <-> a = BATCH_NORM \/ a = END) /\
  (forall b, LAYER_TYPE_STR a = LAYER_TYPE_STR b ->
             a = b \/ LAYER_TYPE_STR a = "UNKNOWN"%string).
Proof.
  split.
  - destruct a; vm_compute; split; intros H; try done; try (by left);
      try (by right); destruct H as [H|H]; discriminate.
  - intros b. destruct a, b; vm_compute; intros H; try discriminate;
      try (by left); by right.
Qed.

(** X8: [ACTIVATION_TYPE_STR] gives every activation type its own name and
    never "UNKNOWN". *)
Theorem ACTIVATION_TYPE_STR_injective (a b : activation_type) :
  (ACTIVATION_TYPE_STR a = ACTIVATION_TYPE_STR b -> a = b) /\
  ACTIVATION_TYPE_STR a <> "UNKNOWN"%string.
Proof.
  split.
  - destruct a, b; vm_compute; intros H; try discriminate; reflexivity.
  - destruct a; vm_compute; discriminate.
Qed.


Section MklFacts.

Variable DEBUG_LEVEL : Z.
Variable NUM_TEST_CASES : Z.
Variable run_layer_skip_activation_func :
  ptr -> ptr -> list layer_t -> Z -> ptr -> list mkl_call * result_buf.

Local Abbreviation run_layer :=
  (run_layer DEBUG_LEVEL NUM_TEST_CASES run_layer_skip_activation_func).
Local Abbreviation nnet_fwd_outer :=
  (nnet_fwd_outer DEBUG_LEVEL NUM_TEST_CASES run_layer_skip_activation_func).
Local Abbreviation nnet_fwd :=
  (nnet_fwd DEBUG_LEVEL NUM_TEST_CASES run_layer_skip_activation_func).

Lemma layer_at_Some layers i :
  is_Some (layer_at layers i) <-> 0 <= i < Z.of_nat (length layers).
Proof.
  unfold layer_at. case_bool_decide.
  - rewrite lookup_lt_is_Some. lia.
  - split; [by intros [? ?]|lia].
Qed.

(** X9: when the layer has an activation function, [run_layer] always
    reports [activations] as the place of the result.  The activation reads
    [result] and writes [activations] if the layer left its output in
    [result]; if the layer left it in [activations], the activation writes
    [result], and [activations] is reported all the same. *)
Theorem run_layer_activated activations weights layers layer_num result L :
  layer_at layers layer_num = Some L ->
  activation L <> NO_ACTIVATION ->
  let skipped :=
    run_layer_skip_activation_func activations weights layers layer_num result in
  exists before after src dst,
    run_layer activations weights layers layer_num result
    = Some (skipped.1 ++ before
            ++ [ActivationFun src NUM_TEST_CASES layer_num dst] ++ after,
            activations) /\
    Forall (fun e => ~ is_activation e) (before ++ after) /\
    (skipped.2 = activations -> src = activations /\ dst = result) /\
    (skipped.2 <> activations -> src = result /\ dst = activations).
Proof.
  intros HL Hact skipped. unfold Nnet.run_layer. rewrite HL. simpl.
  fold skipped. destruct skipped as [tr loc]. simpl.
  rewrite decide_True by done.
  assert (forall msg hid r c h,
            Forall (fun e => ~ is_activation e)
              (PRINT_MSG DEBUG_LEVEL msg
               ++ run_and_clear DEBUG_LEVEL ++ PRINT_DEBUG4D DEBUG_LEVEL hid r c h))
    as Hno.
  { intros. unfold PRINT_MSG, run_and_clear, PRINT_DEBUG4D.
    repeat case_bool_decide; repeat constructor; simpl; auto. }
  destruct (decide (loc = activations)) as [->|Hne]; simpl.
  - eexists (PRINT_MSG DEBUG_LEVEL _),
      (run_and_clear DEBUG_LEVEL ++ PRINT_DEBUG4D DEBUG_LEVEL _ _ _ _),
      activations, result.
    split; [by rewrite <- ?app_assoc|]. split; [apply Hno|done].
  - eexists (PRINT_MSG DEBUG_LEVEL _),
      (run_and_clear DEBUG_LEVEL ++ PRINT_DEBUG4D DEBUG_LEVEL _ _ _ _),
      result, activations.
    split; [by rewrite <- ?app_assoc|]. split; [apply Hno|done].
Qed.

Lemma run_layer_Some activations weights layers layer_num result :
  is_Some (layer_at layers layer_num) ->
  is_Some (run_layer activations weights layers layer_num result).
Proof.
  intros [L HL]. unfold Nnet.run_layer. rewrite HL. simpl.
  destruct (run_layer_skip_activation_func _ _ _ _ _) as [tr loc].
  destruct (decide (activation L <> NO_ACTIVATION)); [|done].
  by destruct (decide (loc = activations)).
Qed.

Lemma run_layer_None activations weights layers layer_num result :
  layer_at layers layer_num = None ->
  run_layer activations weights layers layer_num result = None.
Proof. intros HL. unfold Nnet.run_layer. by rewrite HL. Qed.

Lemma nnet_fwd_outer_Some ls activations weights result layers :
  forall loc,
  is_Some (nnet_fwd_outer ls activations weights result layers loc) <->
  Forall (fun l => 0 <= l < Z.of_nat (length layers)) ls.
Proof.
  induction ls as [|l ls IH]; intros loc; simpl.
  - split; [constructor|by eexists].
  - rewrite Forall_cons, <- layer_at_Some.
    destruct (layer_at layers l) as [L|] eqn:HL; simpl.
    2:{ split; [by intros [? ?]|by intros [[? ?] _]]. }
    pose proof (run_layer_Some (d result) (d weights) layers l (d activations)
                  ltac:(by eexists)) as [[tr1 loc1] H1].
    pose proof (run_layer_Some (d activations) (d weights) layers l (d result)
                  ltac:(by eexists)) as [[tr2 loc2] H2].
    destruct (decide (loc = d result)).
    + rewrite H1. simpl. specialize (IH loc1).
      destruct (nnet_fwd_outer ls activations weights result layers loc1)
        as [[tr' loc']|]; simpl.
      * split; [intros _; split; [by eexists|by apply IH]|by eexists].
      * split; [by intros [? ?]|]. intros [_ Hls]. by apply IH in Hls.
    + rewrite H2. simpl. specialize (IH loc2).
      destruct (nnet_fwd_outer ls activations weights result layers loc2)
        as [[tr' loc']|]; simpl.
      * split; [intros _; split; [by eexists|by apply IH]|by eexists].
      * split; [by intros [? ?]|]. intros [_ Hls]. by apply IH in Hls.
Qed.

(** X10: [nnet_fwd] stays inside the layer array exactly when
    [1 <= depth <= number of layers]; with a depth of 0 or less it writes
    [result_in_temp] before the array. *)
Theorem nnet_fwd_in_bounds activations weights result network :
  is_Some (nnet_fwd activations weights result network) <->
  1 <= depth network <= Z.of_nat (length (layers network)).
Proof.
  unfold Nnet.nnet_fwd.
  pose proof (nnet_fwd_outer_Some (seqZ 1 (depth network - 1)) activations weights
                result (layers network) (d activations)) as Hloop.
  pose proof (layer_at_Some (layers network) (depth network - 1)) as Hlast.
  split.
  - intros [x Hx].
    destruct (nnet_fwd_outer _ _ _ _ _ _) as [[tr loc]|]; [|done]. simpl in Hx.
    destruct (layer_at (layers network) (depth network - 1)); [|done].
    assert (0 <= depth network - 1 < Z.of_nat (length (layers network))).
    { apply Hlast. by eexists. }
    lia.
  - intros Hd.
    assert (is_Some (nnet_fwd_outer (seqZ 1 (depth network - 1)) activations
                       weights result (layers network) (d activations)))
      as [[tr loc] Hl].
    { apply Hloop. apply Forall_forall. intros l Hl%elem_of_seqZ. lia. }
    rewrite Hl. simpl.
    destruct Hlast as [_ [L HL]]; [lia|]. rewrite HL. by eexists.
Qed.


Lemma run_layer_activated_loc activations weights layers layer_num result L :
  layer_at layers layer_num = Some L -> activation L <> NO_ACTIVATION ->
  exists tr, run_layer activations weights layers layer_num result
             = Some (tr, activations).
Proof.
  intros HL Hact. unfold Nnet.run_layer. rewrite HL. simpl.
  destruct (run_layer_skip_activation_func _ _ _ _ _) as [tr loc].
  rewrite decide_True by done.
  destruct (decide (loc = activations)) as [->|Hne]; by eexists.
Qed.

Lemma run_layer_plain_loc activations weights layers layer_num result L :
  layer_at layers layer_num = Some L -> activation L = NO_ACTIVATION ->
  run_layer activations weights layers layer_num result
  = Some (run_layer_skip_activation_func activations weights layers layer_num
                                         result).
Proof.
  intros HL Hact. unfold Nnet.run_layer. rewrite HL. simpl.
  destruct (run_layer_skip_activation_func _ _ _ _ _) as [tr loc].
  by rewrite decide_False by (by intros []).
Qed.

Lemma outer_all_activated activations weights result layers ls :
  Forall (fun l => exists L, layer_at layers l = Some L /\
                             activation L <> NO_ACTIVATION) ls ->
  forall loc, loc = d activations \/ loc = d result ->
  exists tr, nnet_fwd_outer ls activations weights result layers loc
             = Some (tr, loc).
Proof.
  induction 1 as [|l ls (L & HL & Hact) _ IH]; intros loc Hloc.
  - by eexists.
  - cbn [Nnet.nnet_fwd_outer]. rewrite HL. simpl.
    case_decide as Hd.
    + subst loc.
      destruct (run_layer_activated_loc (d result) (d weights) layers l
                  (d activations) L HL Hact) as [tr ->]. simpl.
      destruct (IH (d result)) as [tr' ->]; [by right|]. by eexists.
    + destruct Hloc as [-> | ->]; [|done].
      destruct (run_layer_activated_loc (d activations) (d weights) layers l
                  (d result) L HL Hact) as [tr ->]. simpl.
      destruct (IH (d activations)) as [tr' ->]; [by left|]. by eexists.
Qed.

(** X11: when every executed layer (1 to depth-1) has an activation
    function, the result location never leaves [activations.d]: the
    [result_in_temp] flag of the last layer is 0, unless the two buffers are
    the same one, and nothing else in the layer array changes. *)
Theorem nnet_fwd_all_activated activations weights result network :
  1 <= depth network <= Z.of_nat (length (layers network)) ->
  (forall l L, 1 <= l < depth network ->
               layer_at (layers network) l = Some L ->
               activation L <> NO_ACTIVATION) ->
  exists tr last,
    layer_at (layers network) (depth network - 1) = Some last /\
    nnet_fwd activations weights result network
    = Some (tr, <[Z.to_nat (depth network - 1) :=
                   set_result_in_temp
                     (if decide (d activations = d result) then 1 else 0) last]>
                (layers network)).
Proof.
  intros Hd Hact. unfold Nnet.nnet_fwd.
  destruct (outer_all_activated activations weights result (layers network)
              (seqZ 1 (depth network - 1))) with (loc := d activations)
    as [tr ->].
  { apply Forall_forall. intros l Hl%elem_of_seqZ.
    destruct (proj2 (layer_at_Some (layers network) l)) as [L HL]; [lia|].
    exists L. split; [done|]. apply (Hact l); [lia|done]. }
  { by left. }
  simpl.
  destruct (proj2 (layer_at_Some (layers network) (depth network - 1)))
    as [last Hlast]; [lia|].
  rewrite Hlast. simpl. by eexists _, last.
Qed.

Lemma outer_ping_pong activations weights result layers ls :
  (forall a w ls' l r, (run_layer_skip_activation_func a w ls' l r).2 = r) ->
  d activations <> d result ->
  Forall (fun l => exists L, layer_at layers l = Some L /\
                             activation L = NO_ACTIVATION) ls ->
  forall loc, loc = d activations \/ loc = d result ->
  exists tr,
    nnet_fwd_outer ls activations weights result layers loc
    = Some (tr, if Z.odd (Z.of_nat (length ls))
                then (if decide (loc = d result) then d activations else d result)
                else loc).
Proof.
  intros Hskip Hne. induction 1 as [|l ls (L & HL & Hact) _ IH]; intros loc Hloc.
  - by eexists.
  - assert (Z.odd (Z.of_nat (length (l :: ls)))
            = negb (Z.odd (Z.of_nat (length ls)))) as ->.
    { cbn [length]. by rewrite Nat2Z.inj_succ, Z.odd_succ, Z.negb_odd. }
    cbn [Nnet.nnet_fwd_outer]. rewrite HL. simpl.
    case_decide as Hd.
    + subst loc.
      rewrite (run_layer_plain_loc _ _ _ _ _ L HL Hact).
      pose proof (Hskip (d result) (d weights) layers l (d activations)) as Hs.
      destruct (run_layer_skip_activation_func _ _ _ _ _) as [tr loc1].
      simpl in Hs. subst loc1. simpl.
      destruct (IH (d activations)) as [tr' ->]; [by left|]. simpl.
      eexists. f_equal. f_equal.
      destruct (Z.odd (Z.of_nat (length ls))); simpl; repeat case_decide; congruence.
    + destruct Hloc as [-> | ->]; [|done].
      rewrite (run_layer_plain_loc _ _ _ _ _ L HL Hact).
      pose proof (Hskip (d activations) (d weights) layers l (d result)) as Hs.
      destruct (run_layer_skip_activation_func _ _ _ _ _) as [tr loc1].
      simpl in Hs. subst loc1. simpl.
      destruct (IH (d result)) as [tr' ->]; [by right|]. simpl.
      eexists. f_equal. f_equal.
      destruct (Z.odd (Z.of_nat (length ls))); simpl; repeat case_decide; congruence.
Qed.

(** X12: when no executed layer has an activation function and every
    layer leaves its output in the buffer it was given to write (as all the
    layer functions of this file do), the two distinct buffers alternate:
    [result_in_temp] of the last layer is 1 exactly when the number of
    executed layers, depth-1, is odd. *)
Theorem nnet_fwd_ping_pong activations weights result network :
  (forall a w ls l r, (run_layer_skip_activation_func a w ls l r).2 = r) ->
  d activations <> d result ->
  1 <= depth network <= Z.of_nat (length (layers network)) ->
  (forall l L, 1 <= l < depth network ->
               layer_at (layers network) l = Some L ->
               activation L = NO_ACTIVATION) ->
  exists tr last,
    layer_at (layers network) (depth network - 1) = Some last /\
    nnet_fwd activations weights result network
    = Some (tr, <[Z.to_nat (depth network - 1) :=
                   set_result_in_temp
                     (if Z.odd (depth network - 1) then 1 else 0) last]>
                (layers network)).
Proof.
  intros Hskip Hne Hd Hact. unfold Nnet.nnet_fwd.
  destruct (outer_ping_pong activations weights result (layers network)
              (seqZ 1 (depth network - 1)) Hskip Hne) with (loc := d activations)
    as [tr ->].
  { apply Forall_forall. intros l Hl%elem_of_seqZ.
    destruct (proj2 (layer_at_Some (layers network) l)) as [L HL]; [lia|].
    exists L. split; [done|]. apply (Hact l); [lia|done]. }
  { by left. }
  simpl.
  destruct (proj2 (layer_at_Some (layers network) (depth network - 1)))
    as [last Hlast]; [lia|].
  rewrite Hlast. simpl. eexists _, last. split; [done|].
  rewrite length_seqZ, Z2Nat.id by lia.
  f_equal. f_equal. f_equal. f_equal.
  destruct (Z.odd (depth network - 1)); repeat case_decide; done.
Qed.

End MklFacts.

End NnetFacts.

(** * The scenarios, checked *)

Import Demo.

Ltac by_computation := apply (bool_decide_unpack _); vm_compute; exact I.
Ltac in_bounds := vm_compute; split; [discriminate|reflexivity].

(** C1, counterexample: with 2 input and 2 weight channel tiles the first
    kernel call on an output tile already carries flag [true]. *)
Lemma flag_discipline_violated :
  ~ overwrite_then_accumulate
      (kernel_calls (trace (final_world
         (runNHWC demo_kernel 10 op inputs22 weights22 outputs22 world22)))).
Proof.
  intros Hc.
  remember (kernel_calls (trace (final_world
              (runNHWC demo_kernel 10 op inputs22 weights22 outputs22 world22))))
    as calls eqn:E.
  vm_compute in E. subst calls.
  specialize (Hc 0%nat _ eq_refl). vm_compute in Hc. discriminate.
Qed.

Lemma flag_is_cursor_equality_witness :
  exists calls,
    kernel_calls (trace (final_world
      (chan_loop demo_kernel 10 op inputs22 weights22 outputs22 0 0 0 2 2 0 0
                 world22))) = kernel_calls (trace world22) ++ calls /\
    kc_flag <$> calls = [true; true].
Proof.
  destruct (flag_is_cursor_equality demo_kernel 10 op inputs22 weights22
              outputs22 world22) as [_ Hloop].
  destruct (Hloop 0 0 0 world22) as (calls & Hk & _ & Hflags).
  exists calls. split; [exact Hk|].
  apply Hflags; [|reflexivity|reflexivity]. vm_compute. exact I.
Defined.

Lemma reconciliation_rule_witness :
  exists w' calls,
    chan_loop demo_kernel 10 op inputs22 weights22 outputs22 0 0 1 2 2 0 0
              world22 = Ok tt w' /\
    kernel_calls (trace w') = kernel_calls (trace world22) ++ calls /\
    reconcile 2 2 0 0 (cursor <$> calls) /\
    Forall (fun c =>
      kc_W c = 1 /\
      tile_ptr inputs22 0 0 0 (kc_iC c) = Some (kc_inputs c) /\
      tile_ptr weights22 1 0 0 (kc_wC c) = Some (kc_weights c) /\
      tile_ptr outputs22 0 0 0 1 = Some (kc_results c)) calls.
Proof.
  apply (reconciliation_rule demo_kernel 10 op inputs22 weights22 outputs22
           0 0 1 world22).
  - by_computation.
  - in_bounds.
  - in_bounds.
  - in_bounds.
  - vm_compute. lia.
Defined.

Lemma reconciliation_coverage_witness :
  exists w' calls,
    chan_loop demo_kernel 10 op inputs14 weights14 outputs14 0 0 0 1 4 0 0
              world14 = Ok tt w' /\
    kernel_calls (trace w') = kernel_calls (trace world14) ++ calls /\
    cursor <$> calls = [(0, 0); (0, 1); (0, 2); (0, 3)].
Proof.
  destruct (reconciliation_coverage demo_kernel 10 op inputs14 weights14 outputs14
              0 0 0 world14 4)
    as (w' & calls & Hrun & Hk & _ & _ & _ & _ & Hfour).
  - lia.
  - left. reflexivity.
  - right. reflexivity.
  - by_computation.
  - in_bounds.
  - in_bounds.
  - in_bounds.
  - vm_compute. lia.
  - exists w', calls. split; [exact Hrun|]. split; [exact Hk|].
    apply Hfour; reflexivity.
Defined.

Lemma unequal_counts_inputs_only_witness :
  exists w' calls,
    chan_loop demo_kernel 10 op inputs32 weights32 outputs32 0 0 0 3 2 0 0
              world32 = Ok tt w' /\
    kernel_calls (trace w') = kernel_calls (trace world32) ++ calls /\
    cursor <$> calls = (fun j => (j, 0)) <$> seqZ 0 3 /\
    Z.of_nat (length calls) = 3 /\
    Forall (fun c => kc_wC c = 0 /\
                     tile_ptr weights32 0 0 0 0 = Some (kc_weights c)) calls.
Proof.
  apply (unequal_counts_inputs_only demo_kernel 10 op inputs32 weights32 outputs32
           0 0 0 world32).
  - vm_compute. discriminate.
  - vm_compute. reflexivity.
  - vm_compute. reflexivity.
  - by_computation.
  - in_bounds.
  - in_bounds.
  - in_bounds.
  - vm_compute. lia.
Defined.

Lemma runNHWC_writes_only_outputs_witness :
  heap (final_world (runNHWC demo_kernel 10 op inputs22 weights22 outputs22 world22))
    !! 0%nat = heap world22 !! 0%nat.
Proof.
  apply (runNHWC_writes_only_outputs demo_kernel 10 op inputs22 weights22
           outputs22 world22).
  - by_computation.
  - by_computation.
Defined.

Lemma run_halos_witness :
  tiling_requests (trace (final_world (run demo_kernel demo_tiler 0 10 op world_op)))
  = [(100%nat, nhwc [1; 4; 4; 2], [0; 1; 1; 0]);
     (101%nat, nhwc [4; 3; 3; 2], [0; 0; 0; 0]);
     (102%nat, nhwc [1; 4; 4; 4], [0; 0; 0; 0])].
Proof.
  apply (run_halos demo_kernel demo_tiler 0 10 op world_op
           (data [1; 4; 4; 4]) (data [8; 3; 3; 4]) (tile [1; 4; 4; 8] 0));
    reflexivity.
Defined.

Lemma run_asserts_layout_witness :
  run demo_kernel demo_tiler 0 10 op world_nchw = Fault AssertionFailed world_nchw.
Proof.
  apply (run_asserts_layout demo_kernel demo_tiler 0 10 op world_nchw
           (data [1; 4; 4; 4])
           (mkTensor (mkShape [8; 4; 3; 3] [0; 0; 0; 0] NCHW) (seqZ 0 288))
           (tile [1; 4; 4; 8] 0)).
  - reflexivity.
  - reflexivity.
  - reflexivity.
  - right. left. discriminate.
Defined.

(** C5, counterexample: the operator is configured for a 5x5 kernel while
    every weight tile is 3x3; [runNHWC] reports nothing, before the loop or
    in it, and calls the kernel four times with the 3x3 tiles. *)
Lemma mismatch_goes_undetected :
  let o := runNHWC demo_kernel 10 op5x5 inputs22 weights22 outputs22 world22 in
  weight_tile_mismatch op5x5 (shapes (heap world22)) weights22 /\
  ~ reported_before_loop world22 o /\
  is_ok o /\
  kc_weightsDims <$> kernel_calls (trace (final_world o))
  = [[4; 3; 3; 2]; [4; 3; 3; 2]; [4; 3; 3; 2]; [4; 3; 3; 2]].
Proof.
  split.
  { exists 2%nat, (nhwc [4; 3; 3; 2]). split; [by_computation|].
    split; [reflexivity|]. left. discriminate. }
  split.
  { intros (f & w' & Hf & _). vm_compute in Hf. discriminate. }
  split; [vm_compute; exact I|vm_compute; reflexivity].
Qed.

(** The same through [run], with the tiler of the scenario: the three
    layout assertions pass and the run completes, the 3x3 weight tiles going
    to the kernel although the operator is configured for 5x5. *)
Example run_mismatch_goes_undetected :
  let o := run demo_kernel demo_tiler 0 10 op5x5 world_op in
  is_ok o /\
  kc_weightsDims <$> kernel_calls (trace (final_world o))
  = [[4; 3; 3; 2]; [4; 3; 3; 2]; [4; 3; 3; 2]; [4; 3; 3; 2]].
Proof. split; [vm_compute; exact I|vm_compute; reflexivity]. Qed.

Lemma weight_extent_unchecked_witness :
  (exists tiledInputs tiledWeights tiledOutputs w',
     run demo_kernel demo_tiler 0 10 op5x5 world_op =
     runNHWC demo_kernel 10 op5x5 tiledInputs tiledWeights tiledOutputs w') /\
  let o := runNHWC demo_kernel 10 (with_kernel_extent 5 5 op)
                   inputs22 weights22 outputs22 world22 in
  o = runNHWC demo_kernel 10 op inputs22 weights22 outputs22 world22 /\
  is_ok o /\
  exists calls,
    kernel_calls (trace (final_world o)) = kernel_calls (trace world22) ++ calls /\
    Forall (fun c => dims4 <$> shapes (heap world22) !! kc_weights c
                     = Some (kc_weightsDims c)) calls.
Proof.
  destruct (weight_extent_unchecked demo_kernel demo_tiler 0) as [Hrun Hloop].
  split.
  - apply (Hrun 10%nat op5x5 world_op
             (data [1; 4; 4; 4]) (data [8; 3; 3; 4]) (tile [1; 4; 4; 8] 0));
      reflexivity.
  - apply (Hloop 10%nat op inputs22 weights22 outputs22 world22 5 5).
    + by_computation.
    + vm_compute. lia.
Defined.

Lemma tiles_reconstruct_source_witness :
  exists tiled w' tiles,
    generateTiledTensor 0 0%nat tile2 halo1 (mkWorld {[0%nat := src5]} [])
    = Ok tiled w' /\
    dims (tt_shape tiled) = [1; 3; 3; 1] /\
    tiles_of (heap w') tiled = Some tiles /\
    (stitch 0 (dims tile2) halo1 (dims (tt_shape tiled)) tiles).2 = t_data src5.
Proof.
  destruct (tiles_reconstruct_source 0 0%nat src5 tile2 halo1
              (mkWorld {[0%nat := src5]} []))
    as (tiled & w' & tiles & Hrun & _ & Hgrid & _ & _ & _ & Hread & _ & Hdata).
  - reflexivity.
  - reflexivity.
  - reflexivity.
  - repeat constructor.
  - repeat constructor.
  - repeat constructor; discriminate.
  - discriminate.
  - exists tiled, w', tiles. split; [exact Hrun|]. split; [exact Hgrid|].
    split; [exact Hread|]. apply Hdata; reflexivity.
Defined.

(** ** Further scenarios *)

Lemma FRAC_CEIL_ceiling_witness :
  7 <= Nnet.FRAC_CEIL 7 2 * 2 < 7 + 2.
Proof. apply (NnetFacts.FRAC_CEIL_ceiling 7 2); lia. Defined.

Lemma FRAC_CEIL_negative_witness :
  -3 <= (Nnet.FRAC_CEIL (-3) 2 - 1) * 2 < -3 + 2.
Proof. apply (NnetFacts.FRAC_CEIL_negative (-3) 2); [lia|lia|discriminate]. Defined.

Lemma sub4ind_bounds_witness :
  0 <= Nnet.sub2ind 2 3 5 < 4 * 5 /\
  0 <= Nnet.sub3ind 1 2 3 4 5 < 3 * (4 * 5) /\
  0 <= Nnet.sub4ind 1 1 2 3 3 4 5 < 2 * (4 * 5 * 3).
Proof.
  apply (NnetFacts.sub4ind_bounds 1 1 2 3 2 3 4 5); try lia.
  vm_compute. discriminate.
Defined.

Lemma sub4ind_injective_witness :
  Nnet.sub4ind 0 2 3 4 3 4 5 <> Nnet.sub4ind 1 0 0 0 3 4 5.
Proof.
  apply (NnetFacts.sub4ind_injective 0 2 3 4 1 0 0 0 2 3 4 5); try lia.
  - vm_compute. discriminate.
  - discriminate.
Defined.

Lemma run_layer_activated_witness :
  exists before after src dst,
    Nnet.run_layer 0 64 NnetDemo.demo_skip 1000 2000
                   (Nnet.layers NnetDemo.net_relu) 1 3000
    = Some ((NnetDemo.demo_skip 1000 2000 (Nnet.layers NnetDemo.net_relu) 1 3000).1
            ++ before ++ [Nnet.ActivationFun src 64 1 dst] ++ after, 1000) /\
    Forall (fun e => ~ Nnet.is_activation e) (before ++ after) /\
    ((NnetDemo.demo_skip 1000 2000 (Nnet.layers NnetDemo.net_relu) 1 3000).2 = 1000 ->
     src = 1000 /\ dst = 3000) /\
    ((NnetDemo.demo_skip 1000 2000 (Nnet.layers NnetDemo.net_relu) 1 3000).2 <> 1000 ->
     src = 3000 /\ dst = 1000).
Proof.
  apply (NnetFacts.run_layer_activated 0 64 NnetDemo.demo_skip 1000 2000
           (Nnet.layers NnetDemo.net_relu) 1 3000
           (NnetDemo.layer Nnet.CONV Nnet.RELU)).
  - reflexivity.
  - discriminate.
Defined.

Lemma nnet_fwd_all_activated_witness :
  exists tr last,
    Nnet.layer_at (Nnet.layers NnetDemo.net_relu) 3 = Some last /\
    Nnet.nnet_fwd 0 64 NnetDemo.demo_skip NnetDemo.acts NnetDemo.wgts
                  NnetDemo.res NnetDemo.net_relu
    = Some (tr, <[3%nat := Nnet.set_result_in_temp 0 last]>
                (Nnet.layers NnetDemo.net_relu)).
Proof.
  apply (NnetFacts.nnet_fwd_all_activated 0 64 NnetDemo.demo_skip NnetDemo.acts
           NnetDemo.wgts NnetDemo.res NnetDemo.net_relu).
  - vm_compute. split; discriminate.
  - intros l L Hl HL. change (Nnet.depth NnetDemo.net_relu) with 4 in Hl.
    assert (l = 1 \/ l = 2 \/ l = 3) as [-> | [-> | ->]] by lia;
      vm_compute in HL; injection HL as <-; discriminate.
Defined.

Lemma nnet_fwd_ping_pong_witness :
  exists tr last,
    Nnet.layer_at (Nnet.layers NnetDemo.net_plain) 3 = Some last /\
    Nnet.nnet_fwd 0 64 NnetDemo.demo_skip NnetDemo.acts NnetDemo.wgts
                  NnetDemo.res NnetDemo.net_plain
    = Some (tr, <[3%nat := Nnet.set_result_in_temp 1 last]>
                (Nnet.layers NnetDemo.net_plain)).
Proof.
  apply (NnetFacts.nnet_fwd_ping_pong 0 64 NnetDemo.demo_skip NnetDemo.acts
           NnetDemo.wgts NnetDemo.res NnetDemo.net_plain).
  - reflexivity.
  - discriminate.
  - vm_compute. split; discriminate.
  - intros l L Hl HL. change (Nnet.depth NnetDemo.net_plain) with 4 in Hl.
    assert (l = 1 \/ l = 2 \/ l = 3) as [-> | [-> | ->]] by lia;
      vm_compute in HL; injection HL as <-; reflexivity.
Defined.

Lemma runNHWC_iteration_order_witness :
  exists w',
    runNHWC demo_kernel 10 op inputs22 weights22 outputs22 world22 = Ok tt w' /\
    loop_vars <$> kernel_calls (trace w')
    = [(0, 0, 0, 0, 0); (0, 0, 0, 1, 1); (0, 0, 1, 0, 0); (0, 0, 1, 1, 1)].
Proof.
  apply (runNHWC_iteration_order demo_kernel 10 op inputs22 weights22 outputs22
           world22).
  - by_computation.
  - vm_compute. lia.
Defined.

Lemma runNHWC_empty_witness :
  runNHWC demo_kernel 0 op DemoEmpty.inputs0 weights22 outputs22 world22
  = Ok tt world22.
Proof.
  apply (runNHWC_empty demo_kernel 0 op DemoEmpty.inputs0 weights22 outputs22
           world22).
  left. vm_compute. discriminate.
Defined.

Lemma runNHWC_spatial_tiles_unused_witness :
  exists calls,
    kernel_calls (trace (final_world
      (runNHWC demo_kernel 10 op inputs22 weights22 outputs22 world22)))
    = kernel_calls (trace world22) ++ calls /\
    Forall (fun c =>
      (forall n h x ch,
         tile_ptr inputs22 n h x ch = Some (kc_inputs c) -> x = 0) /\
      (forall f y x ch,
         tile_ptr weights22 f y x ch = Some (kc_weights c) -> y = 0 /\ x = 0) /\
      (forall n h x ch,
         tile_ptr outputs22 n h x ch = Some (kc_results c) -> x = 0)) calls.
Proof.
  apply (runNHWC_spatial_tiles_unused demo_kernel 10 op inputs22 weights22
           outputs22 world22); by_computation.
Defined.

Lemma runNHWC_output_tile_owner_witness :
  exists calls,
    kernel_calls (trace (final_world
      (runNHWC demo_kernel 10 op inputs22 weights22 outputs22 world22)))
    = kernel_calls (trace world22) ++ calls /\
    forall c1 c2, c1 ∈ calls -> c2 ∈ calls ->
      (kc_results c1 = kc_results c2 <->
       (kc_N c1, kc_H c1, kc_W c1) = (kc_N c2, kc_H c2, kc_W c2)).
Proof.
  apply (runNHWC_output_tile_owner demo_kernel 10 op inputs22 weights22
           outputs22 world22).
  by_computation.
Defined.

Lemma run_assertion_iff_layout_witness :
  exists w', run demo_kernel demo_tiler 0 10 op world_nchw
             = Fault AssertionFailed w'.
Proof.
  apply (run_assertion_iff_layout demo_kernel demo_tiler 0 10 op world_nchw
           (data [1; 4; 4; 4])
           (mkTensor (mkShape [8; 4; 3; 3] [0; 0; 0; 0] NCHW) (seqZ 0 288))
           (tile [1; 4; 4; 8] 0)); try reflexivity.
  intros (_ & Hk & _). vm_compute in Hk.
  apply list_elem_of_singleton in Hk. discriminate.
Defined.
